(** * goemitter: the listener registry, its wildcard matcher and its dispatcher

    A shallow embedding of [goemitter.go] (package [Emitter]) and the
    properties of its specification.

    Modelling conventions.
    - A Go [string] is a [string]; [[]rune(s)] is the list of its characters
      (strings of single-byte characters, so that characters and runes agree).
    - [self.listeners], a [map[interface{}][]Listener] that is only ever keyed
      by strings, is a [gmap string (list Listener)].  Go iterates over a map
      in an unspecified order: the order is a parameter ([range_order]) that
      yields some permutation of the entries.
    - A callback is an opaque function value.  [reflect.ValueOf(f).Pointer()]
      is its code pointer; two closures over the same code share it.  A
      callback body does not call back into the emitter in this model: an
      invocation is recorded in a trace and either returns or panics.
    - The mutex is not represented: calls are sequential, and every critical
      section of the source is one atomic update of the registry. *)

From Stdlib Require Import Ascii String.
From stdpp Require Import gmap strings list fin_maps.

Local Open Scope string_scope.
Local Open Scope list_scope.
Set Warnings "-register-all".

(** ** Pattern matcher *)

Definition rune : Type := ascii.

(** [[]rune(s)], read on the bytes of [s]: one rune per byte.  This is the
    conversion of Go on a string of ASCII characters ([is_ascii] below); on
    other strings Go decodes UTF-8 and turns every invalid byte into U+FFFD,
    which loses the byte.  A statement that needs the conversion to lose
    nothing carries [is_ascii] as a hypothesis. *)
Definition runes (s : string) : list rune := list_ascii_of_string s.

(** Every byte of [s] is below 128. *)
Definition is_ascii (s : string) : bool :=
  forallb (λ c, N.ltb (N_of_ascii c) 128) (runes s).

Definition is_star (c : rune) : bool := Ascii.eqb c "*"%char.

(** [eventMatchPattern(eventName, pattern []rune) bool].  The [for] loop is the
    recursion on [pattern]; the retry of the ['*'] case, which keeps [pattern]
    and drops one rune of [eventName], is the inner recursion. *)
Fixpoint eventMatchPattern (eventName pattern : list rune) {struct pattern} : bool :=
  match pattern with
  | [] =>
      (* return len(eventName) == 0 && len(pattern) == 0 *)
      match eventName with [] => true | _ :: _ => false end
  | p0 :: pattern' =>
      if is_star p0 then
        (fix retry (eventName : list rune) : bool :=
           eventMatchPattern eventName pattern'
           || match eventName with
              | [] => false
              | _ :: eventName' => retry eventName'
              end) eventName
      else
        match eventName with
        | [] => false
        | e0 :: eventName' =>
            if Ascii.eqb e0 p0 then eventMatchPattern eventName' pattern'
            else false
        end
  end.

(** [strings.Contains(eventPattern, "*")] *)
Definition contains_star (s : string) : bool := existsb is_star (runes s).

(** The condition [shouldAdd] computed in the loop body of [Listeners]. *)
Definition shouldAdd (eventPattern event : string) : bool :=
  String.eqb eventPattern "**"
  || String.eqb eventPattern event
  || (contains_star eventPattern
      && eventMatchPattern (runes event) (runes eventPattern)).

(** The matching algorithm in the words of the specification (section 4.2),
    to be compared with [eventMatchPattern]. *)
Inductive SpecMatch : list rune → list rune → Prop :=
  | SM_exhausted :
      SpecMatch [] []
  | SM_star_zero eventName pattern :
      SpecMatch eventName pattern →
      SpecMatch eventName ("*"%char :: pattern)
  | SM_star_more c eventName pattern :
      SpecMatch eventName ("*"%char :: pattern) →
      SpecMatch (c :: eventName) ("*"%char :: pattern)
  | SM_literal c eventName pattern :
      c ≠ "*"%char →
      SpecMatch eventName pattern →
      SpecMatch (c :: eventName) (c :: pattern).

(** ** Data model *)

(** A function value [func(...interface{})]: its code pointer, which is what
    [reflect.ValueOf(f).Pointer()] returns, and the closure it was built
    from, which the code pointer does not identify. *)
Record Callback : Type := { fn_code : N; fn_closure : N }.

Global Instance Callback_eq_dec : EqDecision Callback.
Proof. solve_decision. Defined.

Definition Pointer (f : Callback) : N := fn_code f.

(** [type Listener struct { callback func(...interface{}); once bool }] *)
Record Listener : Type := { callback : Callback; once : bool }.

(** The [interface{}] values handed to callbacks. *)
Inductive Value : Type :=
  | VString (s : string)
  | VFunc (f : Callback)
  | VSlice (vs : list Value)
  | VOther (n : N).

(** What a run leaves behind outside the registry: entries into
    [EmitSync]/[EmitAsync] (a ghost record of each emission), callbacks called
    on the caller's goroutine, and callbacks started with [go]. *)
Inductive Event : Type :=
  | Emitted (event : string) (args : list Value)
  | Called (f : Callback) (args : list Value)
  | Spawned (f : Callback) (args : list Value).

(** [listeners] is [self.listeners]. *)
Record World : Type := { listeners : gmap string (list Listener); trace : list Event }.

(** What the program does not fix: the order in which [range] walks a map,
    and what a callback body does when it is called. *)
Class Runtime : Type := {
  range_order : gmap string (list Listener) → list (string * list Listener);
  range_order_perm : ∀ m, range_order m ≡ₚ map_to_list m;
  panics : Callback → list Value → bool
}.

(** Go's own iteration order is not observable; this runtime walks the map in
    the order of [map_to_list] and all its callbacks return. *)
Definition plain_runtime : Runtime :=
  {| range_order := map_to_list;
     range_order_perm := λ m, reflexivity (map_to_list m);
     panics := λ _ _, false |}.

(** ** Control: a call returns or unwinds with a panic *)

Inductive Outcome : Type := Returned | Panicked.

Definition Stmt : Type := World → Outcome * World.

Definition skip : Stmt := λ w, (Returned, w).

Definition seq (a b : Stmt) : Stmt :=
  λ w, match a w with
       | (Returned, w') => b w'
       | (Panicked, w') => (Panicked, w')
       end.

Notation "a ;;; b" := (seq a b) (at level 99, b at level 200, right associativity).

(** The world after a call whose caller carries on (recovering a panic). *)
Definition after (a : Stmt) (w : World) : World := (a w).2.

Definition record (e : Event) (w : World) : World :=
  {| listeners := listeners w; trace := trace w ++ [e] |}.

Definition set_listeners (m : gmap string (list Listener)) (w : World) : World :=
  {| listeners := m; trace := trace w |}.

(** ** Registry and public API *)

(** [Construct()] *)
Definition Construct : World := {| listeners := ∅; trace := [] |}.

(** [Destruct()]: [self = nil] assigns the method's own copy of the receiver
    pointer; neither the caller's pointer nor the emitter is touched. *)
Definition Destruct : Stmt :=
  λ w, let self : option World := None in (Returned, w).

Section Emitter.
Context `{!Runtime}.

(** [Listeners(event)]: the loop appends [lis] to the result for each key
    for which [shouldAdd] holds. *)
Definition Listeners (event : string) (w : World) : list Listener :=
  foldl (λ listeners '(eventPattern, lis),
           if shouldAdd eventPattern event then listeners ++ lis else listeners)
        [] (range_order (listeners w)).

(** [ListenersCount(event)] *)
Definition ListenersCount (event : string) (w : World) : nat :=
  length (Listeners event w).

(** The index at which the loop of [removeListenerInternal] stops: the
    first [k] with [Pointer(v.callback) == Pointer(callback)]. *)
Fixpoint scan (callback0 : Callback) (ls : list Listener) : option nat :=
  match ls with
  | [] => None
  | v :: rest =>
      if N.eqb (Pointer (callback v)) (Pointer callback0) then Some 0
      else S <$> scan callback0 rest
  end.

(** The critical section of [removeListenerInternal], between [Lock] and
    [Unlock]; the flag tells whether an entry was removed. *)
Definition removeLocked (event : string) (callback0 : Callback) (w : World)
  : bool * World :=
  match listeners w !! event with
  | None => (false, w)
  | Some ls =>
      match scan callback0 ls with
      | Some k =>
          (true, set_listeners (<[event := take k ls ++ drop (S k) ls]> (listeners w)) w)
      | None => (false, w)
      end
  end.

(** [v.callback(args...)] *)
Definition invoke (f : Callback) (args : list Value) : Stmt :=
  λ w, (if panics f args then Panicked else Returned, record (Called f args) w).

(** [go v.callback(args...)]: the caller only starts the goroutine. *)
Definition spawn (f : Callback) (args : list Value) : Stmt :=
  λ w, (Returned, record (Spawned f args) w).

(** [removeListenerInternal(event, v.callback, true)], as the two emit
    loops call it: with [suppress] set it is the critical section alone
    (see [removeListenerInternal_suppressed] below). *)
Definition consume (event : string) (v : Listener) : Stmt :=
  λ w, if once v then (Returned, (removeLocked event (callback v) w).2)
       else (Returned, w).

(** The loop of [EmitSync] over the snapshot. *)
Fixpoint dispatchSync (event : string) (args : list Value)
         (snapshot : list Listener) : Stmt :=
  match snapshot with
  | [] => skip
  | v :: rest =>
      consume event v ;;; invoke (callback v) args ;;; dispatchSync event args rest
  end.

(** [EmitSync(event, args...)] *)
Definition EmitSync (event : string) (args : list Value) : Stmt :=
  λ w, dispatchSync event args (Listeners event w) (record (Emitted event args) w).

(** The loop of [EmitAsync] over the snapshot. *)
Fixpoint dispatchAsync (event : string) (args : list Value)
         (snapshot : list Listener) : Stmt :=
  match snapshot with
  | [] => skip
  | v :: rest =>
      consume event v ;;; spawn (callback v) args ;;; dispatchAsync event args rest
  end.

(** [EmitAsync(event, args)] *)
Definition EmitAsync (event : string) (args : list Value) : Stmt :=
  λ w, dispatchAsync event args (Listeners event w) (record (Emitted event args) w).

(** The critical section of [On] and [Once]. *)
Definition register (event : string) (l : Listener) (w : World) : World :=
  let m := match listeners w !! event with
           | Some _ => listeners w
           | None => <[event := []]> (listeners w)
           end in
  set_listeners (<[event := default [] (m !! event) ++ [l]]> m) w.

(** The argument list of a meta-event: the call passes ONE value, the slice
    [[]interface{}{event, callback}], to the variadic [args ...interface{}]. *)
Definition meta_args (event : string) (callback0 : Callback) : list Value :=
  [VSlice [VString event; VFunc callback0]].

(** [On(event, callback)] *)
Definition On (event : string) (callback0 : Callback) : Stmt :=
  λ w, EmitSync "newListener" (meta_args event callback0)
         (register event {| callback := callback0; once := false |} w).

(** [AddListener(event, callback)] *)
Definition AddListener (event : string) (callback0 : Callback) : Stmt :=
  On event callback0.

(** [Once(event, callback)] *)
Definition Once (event : string) (callback0 : Callback) : Stmt :=
  λ w, EmitSync "newListener" (meta_args event callback0)
         (register event {| callback := callback0; once := true |} w).

(** [removeListenerInternal(event, callback, suppress)] *)
Definition removeListenerInternal (event : string) (callback0 : Callback)
           (suppress : bool) : Stmt :=
  λ w, let '(removed, w') := removeLocked event callback0 w in
       if removed && negb suppress
       then EmitSync "removeListener" (meta_args event callback0) w'
       else (Returned, w').

(** [RemoveListener(event, callback)] *)
Definition RemoveListener (event : string) (callback0 : Callback) : Stmt :=
  removeListenerInternal event callback0 false.

(** [RemoveAllListeners(event)]; [None] is the [nil] argument. *)
Definition RemoveAllListeners (event : option string) : Stmt :=
  λ w, match event with
       | None => (Returned, set_listeners ∅ w)
       | Some k =>
           match listeners w !! k with
           | None => (Returned, w)
           | Some _ => (Returned, set_listeners (delete k (listeners w)) w)
           end
       end.

End Emitter.

(** What one turn of the loop of [Listeners] appends. *)
Definition contribution (event : string) (kl : string * list Listener) : list Listener :=
  if shouldAdd kl.1 event then kl.2 else [].

(** ** Vocabulary of the statements *)

(** [ls] splits at the first listener whose callback has the code pointer of
    [f]: no listener of [l1] has it, [v] has it. *)
Definition first_match (f : Callback) (ls l1 : list Listener) (v : Listener)
           (l2 : list Listener) : Prop :=
  ls = l1 ++ v :: l2
  ∧ Pointer (callback v) = Pointer f
  ∧ Forall (λ u, Pointer (callback u) ≠ Pointer f) l1.

(** No listener of [ls] has the code pointer of [f]. *)
Definition no_match (f : Callback) (ls : list Listener) : Prop :=
  Forall (λ u, Pointer (callback u) ≠ Pointer f) ls.

Section Vocabulary.
Context `{!Runtime}.

(** The calls the loop of [EmitSync] makes over a snapshot: one per listener,
    in order, up to and including the first callback that panics. *)
Fixpoint performed (args : list Value) (snapshot : list Listener) : list Event :=
  match snapshot with
  | [] => []
  | v :: rest =>
      Called (callback v) args
      :: (if panics (callback v) args then [] else performed args rest)
  end.

End Vocabulary.

(** ** Programs over the emitter *)

(** A caller that makes one call after the other, carrying on after a call
    that panicked (as under a deferred [recover]). *)
Definition calls (program : list Stmt) (w : World) : World :=
  foldl (λ w a, after a w) w program.

(** The two registry calls of a sequence on one pattern. *)
Inductive Op : Type :=
  | OpOn (f : Callback)
  | OpRemoveListener (f : Callback).

Definition is_on (op : Op) : bool :=
  match op with OpOn _ => true | OpRemoveListener _ => false end.

(** The number of [On] calls of a sequence. *)
Definition adds (ops : list Op) : nat := length (filter is_on ops).

(** How often [f] was run, on the caller's goroutine or on its own. *)
Definition is_run_of (f : Callback) (e : Event) : bool :=
  match e with
  | Called g _ | Spawned g _ => bool_decide (g = f)
  | Emitted _ _ => false
  end.

Definition invocations (f : Callback) (tr : list Event) : nat :=
  length (filter (λ e, is_run_of f e = true) tr).

(** The listener that [On] appends. *)
Definition on_listener (f : Callback) : Listener := {| callback := f; once := false |}.

(** The listener that [Once] appends. *)
Definition once_listener (f : Callback) : Listener := {| callback := f; once := true |}.

(** The length of the sequence stored under the key [k]. *)
Definition stored (k : string) (w : World) : nat :=
  length (default [] (listeners w !! k)).

Section Programs.
Context `{!Runtime}.

Definition step (pattern : string) (op : Op) : Stmt :=
  match op with
  | OpOn f => On pattern f
  | OpRemoveListener f => RemoveListener pattern f
  end.

(** The sequence of calls [ops], all on [pattern]. *)
Definition run (pattern : string) (ops : list Op) (w : World) : World :=
  foldl (λ w op, after (step pattern op) w) w ops.

(** The successful removals of the sequence: the [RemoveListener] calls whose
    loop found an entry. *)
Fixpoint removals (pattern : string) (ops : list Op) (w : World) : nat :=
  match ops with
  | [] => 0
  | op :: rest =>
      match op with
      | OpRemoveListener f => if (removeLocked pattern f w).1 then 1 else 0
      | OpOn _ => 0
      end + removals pattern rest (after (step pattern op) w)
  end.

End Programs.

(** [e] is the one key that holds listeners: any other key of the registry
    has an empty sequence. *)
Definition sole_holder (e : string) (w : World) : Prop :=
  ∀ k lis, listeners w !! k = Some lis → k ≠ e → lis = [].

(** No registered pattern other than [pattern] itself matches the event name
    [pattern]. *)
Definition unmatched_elsewhere (pattern : string) (w : World) : Prop :=
  ∀ k lis, listeners w !! k = Some lis → k ≠ pattern → shouldAdd k pattern = false.

(** The listeners stored under [pattern] were registered with [On]. *)
Definition all_plain (pattern : string) (w : World) : Prop :=
  ∀ lis v, listeners w !! pattern = Some lis → v ∈ lis → once v = false.

(** ** Goroutines *)

(** What becomes of a goroutine once it runs. *)
Inductive Fate : Type := Finishes | ProcessExits.

(** A runtime in which the callbacks of code pointer 13 panic. *)
Definition panicky_runtime : Runtime :=
  {| range_order := map_to_list;
     range_order_perm := λ m, reflexivity (map_to_list m);
     panics := λ f _, N.eqb (fn_code f) 13 |}.

(** A callback that panics under [panicky_runtime], registered on ["job"]. *)
Definition job_callback : Callback := {| fn_code := 13; fn_closure := 0 |}.

Definition job_world : World :=
  {| listeners := {[ "job" := [on_listener job_callback] ]}; trace := [] |}.

Section Goroutines.
Context `{!Runtime}.

(** [go v.callback(args...)] makes the call of the callback the whole stack
    of the new goroutine: [EmitAsync] defers no [recover] around it.  A panic
    that unwinds a goroutine to the top of its stack ends the program. *)
Definition goroutine_fate (e : Event) : Fate :=
  match e with
  | Spawned f args => if panics f args then ProcessExits else Finishes
  | Called _ _ | Emitted _ _ => Finishes
  end.

(** The bookkeeping of the asynchronous loop: the once-listeners of the
    snapshot are looked up under the emitted name and removed. *)
Definition consumed (event : string) (snapshot : list Listener) (w : World) : World :=
  foldl (λ w v, (consume event v w).2) w snapshot.

(** What [EmitAsync event args] appended to the trace of [w]. *)
Definition scheduled (event : string) (args : list Value) (w : World) : list Event :=
  drop (length (trace w)) (trace (after (EmitAsync event args) w)).

(** Isolation as the specification words it: no invocation scheduled by
    [EmitAsync] brings the process down, whatever its callback does. *)
Definition isolates_panics (event : string) (args : list Value) (w : World) : Prop :=
  ∀ e, e ∈ scheduled event args w → goroutine_fate e ≠ ProcessExits.

End Goroutines.

(** ** What an emit leaves of a sequence *)

(** The code pointers of a sequence of listeners. *)
Definition pointers (ls : list Listener) : list N :=
  (λ v, Pointer (callback v)) <$> ls.

(** The listeners of a sequence that were registered with [On]. *)
Fixpoint permanent (ls : list Listener) : list Listener :=
  match ls with
  | [] => []
  | v :: rest => if once v then permanent rest else v :: permanent rest
  end.

Section Survivors.
Context `{!Runtime}.

(** What the loop of [EmitSync] leaves of the snapshot: a once-listener goes
    when its turn comes, before its callback is called; behind a callback
    that panics nothing is touched. *)
Fixpoint survivors (args : list Value) (ls : list Listener) : list Listener :=
  match ls with
  | [] => []
  | v :: rest =>
      (if once v then [] else [v])
      ++ (if panics (callback v) args then rest else survivors args rest)
  end.

End Survivors.

(** * Properties *)

Example match_user_created :
  eventMatchPattern (runes "user.created") (runes "user.*") = true.
Proof. reflexivity. Qed.

Example match_admin_created :
  eventMatchPattern (runes "admin.created") (runes "user.*") = false.
Proof. reflexivity. Qed.

(** ** The matcher against the algorithm of the specification *)

Section Matcher.
Implicit Types (e p : list rune) (c : rune).

Lemma is_star_true c : is_star c = true ↔ c = "*"%char.
Proof. unfold is_star. apply Ascii.eqb_eq. Qed.

Lemma is_star_false c : is_star c = false ↔ c ≠ "*"%char.
Proof. unfold is_star. apply Ascii.eqb_neq. Qed.

(** One turn of the loop when [pattern[0]] is ['*']: the [return] of the
    source, [len(eventName) > 0 && ...] written by cases. *)
Lemma eventMatchPattern_star e p :
  eventMatchPattern e ("*"%char :: p)
  = eventMatchPattern e p
    || match e with
       | [] => false
       | _ :: e' => eventMatchPattern e' ("*"%char :: p)
       end.
Proof. destruct e; reflexivity. Qed.

(** One turn of the loop in the [default] case. *)
Lemma eventMatchPattern_literal c e p :
  c ≠ "*"%char →
  eventMatchPattern e (c :: p)
  = match e with
    | [] => false
    | e0 :: e' => if Ascii.eqb e0 c then eventMatchPattern e' p else false
    end.
Proof.
  intros Hc%is_star_false. cbn [eventMatchPattern]. rewrite Hc. reflexivity.
Qed.

Lemma eventMatchPattern_sound e p :
  eventMatchPattern e p = true → SpecMatch e p.
Proof.
  revert e. induction p as [|c p IHp]; intros e.
  - destruct e; [constructor | discriminate].
  - destruct (is_star c) eqn:Hc.
    + apply is_star_true in Hc as ->.
      induction e as [|e0 e IHe]; rewrite eventMatchPattern_star;
        intros [H|H]%orb_true_iff; try discriminate.
      * apply SM_star_zero, IHp, H.
      * apply SM_star_zero, IHp, H.
      * apply SM_star_more, IHe, H.
    + apply is_star_false in Hc.
      rewrite (eventMatchPattern_literal _ _ _ Hc).
      destruct e as [|e0 e]; [discriminate|].
      destruct (Ascii.eqb e0 c) eqn:He; [|discriminate].
      apply Ascii.eqb_eq in He as ->. intros H.
      apply SM_literal; [exact Hc | apply IHp, H].
Qed.

Lemma eventMatchPattern_complete e p :
  SpecMatch e p → eventMatchPattern e p = true.
Proof.
  induction 1 as [|e p _ IH|c e p _ IH|c e p Hc _ IH].
  - reflexivity.
  - rewrite eventMatchPattern_star, IH. reflexivity.
  - rewrite eventMatchPattern_star, IH. apply orb_true_r.
  - rewrite (eventMatchPattern_literal _ _ _ Hc), Ascii.eqb_refl. exact IH.
Qed.

Lemma eventMatchPattern_spec e p :
  eventMatchPattern e p = true ↔ SpecMatch e p.
Proof.
  split; [apply eventMatchPattern_sound | apply eventMatchPattern_complete].
Qed.

(** ['*'] swallows any run of characters: zero or more, of any kind. *)
Lemma eventMatchPattern_star_any e p :
  eventMatchPattern e ("*"%char :: p) = true
  ↔ ∃ x e', e = x ++ e' ∧ eventMatchPattern e' p = true.
Proof.
  split.
  - induction e as [|e0 e IHe]; rewrite eventMatchPattern_star;
      intros [H|H]%orb_true_iff; try discriminate.
    + exists [], []. auto.
    + exists [], (e0 :: e). auto.
    + destruct (IHe H) as (x & e' & -> & He'). exists (e0 :: x), e'. auto.
  - intros (x & e' & -> & He'). induction x as [|x0 x IHx]; cbn [app].
    + rewrite eventMatchPattern_star, He'. reflexivity.
    + rewrite eventMatchPattern_star, IHx. apply orb_true_r.
Qed.

(** Every string matches itself, the stars in it included. *)
Lemma eventMatchPattern_refl e : eventMatchPattern e e = true.
Proof.
  induction e as [|c e IHe]; [reflexivity|].
  destruct (is_star c) eqn:Hc.
  - apply is_star_true in Hc as ->.
    apply eventMatchPattern_star_any. exists ["*"%char], e. auto.
  - apply is_star_false in Hc.
    rewrite (eventMatchPattern_literal _ _ _ Hc), Ascii.eqb_refl. exact IHe.
Qed.

Lemma eventMatchPattern_star_star e :
  eventMatchPattern e (runes "**") = true.
Proof.
  apply eventMatchPattern_star_any. exists [], e. split; [reflexivity|].
  apply eventMatchPattern_star_any. exists e, []. split; [|reflexivity].
  symmetry. apply app_nil_r.
Qed.

(** A pattern without ['*'] matches exactly its own characters. *)
Lemma eventMatchPattern_exact e p :
  existsb is_star p = false → (eventMatchPattern e p = true ↔ e = p).
Proof.
  revert e. induction p as [|c p IHp]; intros e Hp.
  - destruct e; cbn; split; intros; congruence.
  - cbn [existsb] in Hp. apply orb_false_iff in Hp as [Hc Hp].
    apply is_star_false in Hc.
    rewrite (eventMatchPattern_literal _ _ _ Hc).
    destruct e as [|e0 e]; [split; intros; discriminate|].
    destruct (Ascii.eqb e0 c) eqn:He.
    + apply Ascii.eqb_eq in He as ->. rewrite (IHp e Hp).
      split; intros; congruence.
    + apply Ascii.eqb_neq in He. split; intros; congruence.
Qed.

(** For a pattern that contains ['*'], the test of [Listeners] is the
    recursive matcher: the two shortcuts agree with it. *)
Lemma shouldAdd_wildcard (eventPattern event : string) :
  contains_star eventPattern = true →
  shouldAdd eventPattern event
  = eventMatchPattern (runes event) (runes eventPattern).
Proof.
  intros Hs. unfold shouldAdd. rewrite Hs, andb_true_l.
  destruct (String.eqb eventPattern "**") eqn:H1.
  { apply String.eqb_eq in H1 as ->.
    symmetry. apply eventMatchPattern_star_star. }
  destruct (String.eqb eventPattern event) eqn:H2.
  { apply String.eqb_eq in H2 as ->.
    symmetry. apply eventMatchPattern_refl. }
  reflexivity.
Qed.


(** For a pattern without ['*'], the test of [Listeners] is equality. *)
Lemma shouldAdd_exact (eventPattern event : string) :
  contains_star eventPattern = false →
  (shouldAdd eventPattern event = true ↔ eventPattern = event).
Proof.
  intros Hs. unfold shouldAdd. rewrite Hs, andb_false_l, orb_false_r.
  destruct (String.eqb eventPattern "**") eqn:H1.
  { apply String.eqb_eq in H1 as ->. discriminate Hs. }
  cbn [orb]. apply String.eqb_eq.
Qed.

End Matcher.

(** ** The snapshot taken by [Listeners] *)

Section Snapshot.
Context `{!Runtime}.
Implicit Types (w : World) (event k : string) (lis : list Listener).

Lemma Listeners_loop event (xs : list (string * list Listener)) acc :
  foldl (λ listeners '(eventPattern, lis),
           if shouldAdd eventPattern event then listeners ++ lis else listeners)
        acc xs
  = acc ++ (xs ≫= contribution event).
Proof.
  revert acc. induction xs as [|[k lis] xs IH]; intros acc; cbn.
  - symmetry. apply app_nil_r.
  - rewrite IH. unfold contribution at 2. cbn.
    destruct (shouldAdd k event); [apply symmetry, app_assoc | reflexivity].
Qed.

Lemma Listeners_bind event w :
  Listeners event w = range_order (listeners w) ≫= contribution event.
Proof. unfold Listeners. apply Listeners_loop. Qed.

Lemma elem_of_range_order (m : gmap string (list Listener)) k lis :
  (k, lis) ∈ range_order m ↔ m !! k = Some lis.
Proof. rewrite (range_order_perm m). apply elem_of_map_to_list. Qed.

Lemma NoDup_range_order (m : gmap string (list Listener)) :
  NoDup (range_order m).
Proof. rewrite (range_order_perm m). apply NoDup_map_to_list. Qed.

(** The snapshot holds the listeners of every key that passes the test. *)
Lemma elem_of_Listeners event w (v : Listener) :
  v ∈ Listeners event w
  ↔ ∃ k lis, listeners w !! k = Some lis ∧ shouldAdd k event = true ∧ v ∈ lis.
Proof.
  rewrite Listeners_bind, list_elem_of_bind. split.
  - intros ([k lis] & Hv & Hk). apply elem_of_range_order in Hk.
    unfold contribution in Hv. cbn in Hv.
    destruct (shouldAdd k event) eqn:Hs; [eauto | by apply elem_of_nil in Hv].
  - intros (k & lis & Hk & Hs & Hv). exists (k, lis). split.
    + unfold contribution. cbn. by rewrite Hs.
    + by apply elem_of_range_order.
Qed.

Lemma bind_nil {A B} (f : A → list B) (xs : list A) :
  (∀ x, x ∈ xs → f x = []) → xs ≫= f = [].
Proof.
  induction xs as [|x xs IH]; intros Hf; [reflexivity|]. cbn.
  rewrite (Hf x), IH; [reflexivity | | apply list_elem_of_here].
  intros y Hy. apply Hf. by apply list_elem_of_further.
Qed.

(** When a single key [k0] can contribute, the snapshot is that key's
    contribution, in whatever order the map is walked. *)
Lemma Listeners_single event w k0 :
  (∀ k lis, listeners w !! k = Some lis → k ≠ k0 → contribution event (k, lis) = []) →
  Listeners event w
  = match listeners w !! k0 with
    | Some lis => contribution event (k0, lis)
    | None => []
    end.
Proof.
  intros Hothers. rewrite Listeners_bind.
  destruct (listeners w !! k0) as [l0|] eqn:Hk0.
  - pose proof (NoDup_range_order (listeners w)) as Hnd.
    assert (Hin : (k0, l0) ∈ range_order (listeners w))
      by by apply elem_of_range_order.
    assert (Hall : ∀ k lis, (k, lis) ∈ range_order (listeners w) →
              (k, lis) ≠ (k0, l0) → contribution event (k, lis) = []).
    { intros k lis Hk Hne. apply elem_of_range_order in Hk.
      apply Hothers; [exact Hk|]. intros ->. congruence. }
    destruct (list_elem_of_split _ _ Hin) as (a & b & Hab).
    rewrite Hab in Hnd, Hall |- *.
    apply NoDup_app in Hnd as (_ & Ha & [Hb _]%NoDup_cons).
    rewrite bind_app, bind_cons.
    rewrite (bind_nil _ a), (bind_nil _ b).
    + cbn. apply app_nil_r.
    + intros [k lis] Hx. apply Hall.
      * apply elem_of_app. right. by apply list_elem_of_further.
      * intros Heq. apply Hb. by rewrite <- Heq.
    + intros [k lis] Hx. apply Hall.
      * apply elem_of_app. by left.
      * intros Heq. apply (Ha _ Hx). rewrite Heq. apply list_elem_of_here.
  - apply bind_nil. intros [k lis] Hx. apply elem_of_range_order in Hx.
    apply Hothers; [exact Hx|]. intros ->. congruence.
Qed.

End Snapshot.

(** ** Claims on the matcher *)

(** C3.  For every pattern that contains the wildcard character ['*'] and
    every event name, the matcher accepts the pair exactly when the recursive
    algorithm of the specification succeeds: at a ['*'] either the rest of
    the pattern matches the event name unchanged, or the event name is not
    empty and the same step is retried one character further; a literal must
    equal the next character of the event name; both strings must be
    exhausted together.  Hence ['*'] stands for zero or more arbitrary
    characters, separators included. *)
Theorem wildcard_matcher_refines_spec (eventPattern event : string) :
  contains_star eventPattern = true →
  (shouldAdd eventPattern event = true
   ↔ SpecMatch (runes event) (runes eventPattern))
  ∧ (eventMatchPattern (runes event) (runes eventPattern) = true
     ↔ SpecMatch (runes event) (runes eventPattern))
  ∧ (∀ e p : list rune,
       eventMatchPattern e ("*"%char :: p) = true
       ↔ ∃ x e', e = x ++ e' ∧ eventMatchPattern e' p = true).
Proof.
  intros Hs. rewrite (shouldAdd_wildcard _ _ Hs).
  split; [apply eventMatchPattern_spec|].
  split; [apply eventMatchPattern_spec|].
  apply eventMatchPattern_star_any.
Qed.

Lemma wildcard_matcher_refines_spec_witness :
  contains_star "user.*" = true
  ∧ (shouldAdd "user.*" "user.created" = true
     ↔ SpecMatch (runes "user.created") (runes "user.*")).
Proof.
  split; [reflexivity|].
  apply (wildcard_matcher_refines_spec "user.*" "user.created"). reflexivity.
Defined.

Section MatchClaims.
Context `{!Runtime}.


End MatchClaims.


(** ** Removal *)

Section Removal.
Context `{!Runtime}.
Implicit Types (w : World) (event : string) (f : Callback) (ls : list Listener).

Lemma scan_first_match f ls l1 v l2 :
  first_match f ls l1 v l2 → scan f ls = Some (length l1).
Proof.
  intros (-> & Hv & Hl1). induction Hl1 as [|u l1 Hu _ IH]; cbn.
  - apply N.eqb_eq in Hv. by rewrite Hv.
  - apply N.eqb_neq in Hu. by rewrite Hu, IH.
Qed.

Lemma scan_no_match f ls : no_match f ls → scan f ls = None.
Proof.
  induction 1 as [|u ls Hu _ IH]; cbn; [reflexivity|].
  apply N.eqb_neq in Hu. by rewrite Hu, IH.
Qed.

(** The loop stops at an index exactly when the list splits there. *)
Lemma scan_Some f ls k :
  scan f ls = Some k →
  ∃ l1 v l2, first_match f ls l1 v l2 ∧ length l1 = k
             ∧ take k ls ++ drop (S k) ls = l1 ++ l2.
Proof.
  revert k. induction ls as [|u ls IH]; intros k; cbn; [discriminate|].
  destruct (N.eqb (Pointer (callback u)) (Pointer f)) eqn:Hu.
  - intros [= <-]. apply N.eqb_eq in Hu.
    exists [], u, ls. repeat split; [exact Hu | constructor].
  - destruct (scan f ls) as [k'|] eqn:Hs; [|discriminate]. intros [= <-].
    destruct (IH k' eq_refl) as (l1 & v & l2 & (-> & Hv & Hl1) & Hlen & Hcut).
    apply N.eqb_neq in Hu.
    exists (u :: l1), v, l2. repeat split; cbn; auto.
    by f_equal.
Qed.

Lemma scan_None f ls : scan f ls = None → no_match f ls.
Proof.
  induction ls as [|u ls IH]; cbn; [constructor|].
  destruct (N.eqb (Pointer (callback u)) (Pointer f)) eqn:Hu; [discriminate|].
  destruct (scan f ls); [discriminate|]. intros _.
  apply N.eqb_neq in Hu. constructor; auto. by apply IH.
Qed.

Lemma removeLocked_found event f w ls l1 v l2 :
  listeners w !! event = Some ls → first_match f ls l1 v l2 →
  removeLocked event f w
  = (true, set_listeners (<[event := l1 ++ l2]> (listeners w)) w).
Proof.
  intros Hk Hm. unfold removeLocked.
  rewrite Hk, (scan_first_match _ _ _ _ _ Hm).
  destruct Hm as (-> & _ & _).
  rewrite take_app_length.
  replace (drop (S (length l1)) (l1 ++ v :: l2)) with l2; [reflexivity|].
  rewrite (cons_middle v), app_assoc.
  replace (S (length l1)) with (length (l1 ++ [v])) by (rewrite length_app; cbn; lia).
  by rewrite drop_app_length.
Qed.

Lemma removeLocked_missing event f w :
  (listeners w !! event = None
   ∨ ∃ ls, listeners w !! event = Some ls ∧ no_match f ls) →
  removeLocked event f w = (false, w).
Proof.
  unfold removeLocked. intros [-> | (ls & -> & Hn)]; [reflexivity|].
  by rewrite (scan_no_match _ _ Hn).
Qed.

(** Whatever it finds, the critical section leaves the trace alone, changes
    no key but [event], and removes at most one listener of [event]. *)
Lemma removeLocked_trace event f w : trace (removeLocked event f w).2 = trace w.
Proof.
  unfold removeLocked. destruct (listeners w !! event); [|reflexivity].
  by destruct (scan f l).
Qed.

Lemma removeLocked_other event f w k :
  k ≠ event → listeners (removeLocked event f w).2 !! k = listeners w !! k.
Proof.
  intros Hk. unfold removeLocked. destruct (listeners w !! event); [|reflexivity].
  destruct (scan f l); [|reflexivity]. cbn. by rewrite lookup_insert_ne.
Qed.

Lemma removeListenerInternal_suppressed event f w :
  removeListenerInternal event f true w = (Returned, (removeLocked event f w).2).
Proof.
  unfold removeListenerInternal. destruct (removeLocked event f w) as [r w'].
  by rewrite andb_false_r.
Qed.

Lemma consume_internal event (v : Listener) w :
  consume event v w
  = if once v then removeListenerInternal event (callback v) true w
    else (Returned, w).
Proof. unfold consume. by rewrite removeListenerInternal_suppressed. Qed.

Lemma consume_returns event (v : Listener) w : (consume event v w).1 = Returned.
Proof. unfold consume. by destruct (once v). Qed.

Lemma consume_trace event (v : Listener) w : trace (consume event v w).2 = trace w.
Proof. unfold consume. destruct (once v); [apply removeLocked_trace | reflexivity]. Qed.

(** The calls of one synchronous dispatch. *)
Lemma dispatchSync_trace event args (snapshot : list Listener) w :
  trace (dispatchSync event args snapshot w).2 = trace w ++ performed args snapshot.
Proof.
  revert w. induction snapshot as [|v rest IH]; intros w; cbn.
  - symmetry. apply app_nil_r.
  - unfold seq. pose proof (consume_returns event v w) as Hr.
    pose proof (consume_trace event v w) as Ht.
    destruct (consume event v w) as [o w1]. cbn in Hr, Ht. subst o.
    unfold invoke at 1. destruct (panics (callback v) args); cbn.
    + by rewrite Ht.
    + rewrite IH. cbn. by rewrite Ht, <- app_assoc.
Qed.

Lemma EmitSync_trace event args w :
  trace (after (EmitSync event args) w)
  = trace w ++ Emitted event args :: performed args (Listeners event w).
Proof.
  unfold after, EmitSync. rewrite dispatchSync_trace. cbn.
  by rewrite <- app_assoc.
Qed.

End Removal.

Section RemovalClaims.
Context `{!Runtime}.
Implicit Types (w : World) (event : string) (f : Callback) (ls : list Listener).

Lemma first_match_or_no_match f ls :
  (∃ l1 v l2, first_match f ls l1 v l2) ∨ no_match f ls.
Proof.
  destruct (scan f ls) as [k|] eqn:Hs.
  - left. destruct (scan_Some _ _ _ Hs) as (l1 & v & l2 & Hm & _). eauto.
  - right. by apply scan_None.
Qed.

(** X19.  [RemoveListener(pattern, f)] removes the first entry of the
    pattern's sequence whose callback has the CODE POINTER of [f] (what
    [reflect.ValueOf(..).Pointer()] compares; the entry need not be [f]
    itself), and keeps the order of the others; when the pattern is missing
    or no entry has that code pointer it returns normally and changes
    nothing; it emits ["removeListener"] exactly when an entry was removed by
    an external call, and the removal of a consumed once-listener, done from
    inside the emit loops, emits nothing. *)
Theorem RemoveListener_removes_first_match event f w :
  (∀ ls l1 v l2,
     listeners w !! event = Some ls → first_match f ls l1 v l2 →
     let w' := set_listeners (<[event := l1 ++ l2]> (listeners w)) w in
     removeLocked event f w = (true, w')
     ∧ RemoveListener event f w
       = EmitSync "removeListener" (meta_args event f) w'
     ∧ trace (after (RemoveListener event f) w)
       = trace w ++ Emitted "removeListener" (meta_args event f)
                 :: performed (meta_args event f) (Listeners "removeListener" w'))
  ∧ ((listeners w !! event = None
      ∨ ∃ ls, listeners w !! event = Some ls ∧ no_match f ls) →
     RemoveListener event f w = (Returned, w))
  ∧ (∀ ls, listeners w !! event = Some ls →
       (∃ l1 v l2, first_match f ls l1 v l2) ∨ no_match f ls)
  ∧ removeListenerInternal event f true w = (Returned, (removeLocked event f w).2)
  ∧ trace (after (removeListenerInternal event f true) w) = trace w
  ∧ (∀ v : Listener,
       consume event v w
       = if once v then removeListenerInternal event (callback v) true w
         else (Returned, w)).
Proof.
  split; [|split; [|split; [|split; [|split]]]].
  - intros ls l1 v l2 Hk Hm w'.
    pose proof (removeLocked_found _ _ _ _ _ _ _ Hk Hm) as Hr. fold w' in Hr.
    assert (He : RemoveListener event f w
                 = EmitSync "removeListener" (meta_args event f) w').
    { unfold RemoveListener, removeListenerInternal. by rewrite Hr. }
    split; [exact Hr|]. split; [exact He|].
    unfold after. rewrite He.
    exact (EmitSync_trace "removeListener" (meta_args event f) w').
  - intros Hmiss. unfold RemoveListener, removeListenerInternal.
    by rewrite (removeLocked_missing _ _ _ Hmiss).
  - intros ls _. apply first_match_or_no_match.
  - apply removeListenerInternal_suppressed.
  - unfold after. rewrite removeListenerInternal_suppressed. cbn.
    apply removeLocked_trace.
  - intros v. apply consume_internal.
Qed.

(** C8.  [RemoveAllListeners(nil)] clears the whole registry.  With a
    concrete pattern it deletes that exact key and leaves the sequence of
    every other key as it was, patterns that the key would match included;
    when the key is absent nothing changes. *)
Theorem RemoveAllListeners_frame w :
  RemoveAllListeners None w = (Returned, set_listeners ∅ w)
  ∧ listeners (after (RemoveAllListeners None) w) = ∅
  ∧ (∀ k,
       let w' := after (RemoveAllListeners (Some k)) w in
       (RemoveAllListeners (Some k) w).1 = Returned
       ∧ listeners w' !! k = None
       ∧ (∀ k', k' ≠ k → listeners w' !! k' = listeners w !! k')
       ∧ trace w' = trace w
       ∧ (listeners w !! k = None → w' = w)).
Proof.
  split; [reflexivity|]. split; [reflexivity|].
  intros k w'. subst w'. unfold after, RemoveAllListeners.
  destruct (listeners w !! k) as [ls|] eqn:Hk; cbn.
  - split; [reflexivity|]. split; [apply lookup_delete_eq|].
    split; [|split; [reflexivity | discriminate]].
    intros k' Hk'. by apply lookup_delete_ne.
  - split; [reflexivity|]. split; [exact Hk|]. by repeat split.
Qed.

End RemovalClaims.

Lemma RemoveListener_removes_first_match_witness :
  let f1 := {| fn_code := 1; fn_closure := 0 |} in
  let f2 := {| fn_code := 2; fn_closure := 0 |} in
  let l1 := [{| callback := f2; once := false |}] in
  let v := {| callback := f1; once := false |} in
  let l2 := [{| callback := f1; once := true |}] in
  let w := {| listeners := {[ "testevent" := l1 ++ v :: l2 ]}; trace := [] |} in
  listeners w !! "testevent" = Some (l1 ++ v :: l2)
  ∧ first_match f1 (l1 ++ v :: l2) l1 v l2
  ∧ listeners (after (@RemoveListener plain_runtime "testevent" f1) w) !! "testevent"
    = Some (l1 ++ l2)
  ∧ trace (after (@RemoveListener plain_runtime "testevent" f1) w)
    = [Emitted "removeListener" (meta_args "testevent" f1)].
Proof.
  intros f1 f2 l1 v l2 w.
  assert (Hk : listeners w !! "testevent" = Some (l1 ++ v :: l2)) by reflexivity.
  assert (Hm : first_match f1 (l1 ++ v :: l2) l1 v l2).
  { split; [reflexivity|]. split; [reflexivity|].
    constructor; [|constructor]. cbn. discriminate. }
  destruct (@RemoveListener_removes_first_match plain_runtime "testevent" f1 w)
    as (Hfound & _).
  destruct (Hfound _ _ _ _ Hk Hm) as (_ & He & Ht).
  split; [exact Hk|]. split; [exact Hm|]. split.
  - unfold after. rewrite He. vm_compute. reflexivity.
  - rewrite Ht. vm_compute. reflexivity.
Defined.

Lemma RemoveAllListeners_frame_witness :
  let v := {| callback := {| fn_code := 1; fn_closure := 0 |}; once := false |} in
  let w := {| listeners := {[ "user.*" := [v]; "user.created" := [v] ]};
              trace := [] |} in
  let w' := after (RemoveAllListeners (Some "user.*")) w in
  "user.created" ≠ "user.*"
  ∧ listeners w' !! "user.*" = None
  ∧ listeners w' !! "user.created" = Some [v].
Proof.
  intros v w w'.
  destruct (RemoveAllListeners_frame w) as (_ & _ & Hkey).
  destruct (Hkey "user.*") as (_ & Hgone & Hframe & _).
  split; [discriminate|]. split; [exact Hgone|].
  unfold w'. rewrite (Hframe "user.created"); [reflexivity | discriminate].
Defined.

(** C6, evaluated.  Three closures of one function literal, [fA], [fB] and
    [fC], have one code pointer.  With [fA] then [fB] registered on ["x"],
    [RemoveListener("x", fB)] removes the entry of [fA] and leaves that of
    [fB]; [RemoveListener("x", fC)], of a callback that was never registered,
    also removes the entry of [fA] and emits ["removeListener"] for [fC]. *)
Theorem RemoveListener_removes_another_closure :
  let fA := {| fn_code := 1; fn_closure := 1 |} in
  let fB := {| fn_code := 1; fn_closure := 2 |} in
  let fC := {| fn_code := 1; fn_closure := 3 |} in
  let w := calls [@On plain_runtime "x" fA; @On plain_runtime "x" fB] Construct in
  fA ≠ fB ∧ fC ≠ fA ∧ fC ≠ fB
  ∧ Pointer fA = Pointer fB ∧ Pointer fA = Pointer fC
  ∧ listeners w !! "x" = Some [on_listener fA; on_listener fB]
  ∧ listeners (after (@RemoveListener plain_runtime "x" fB) w) !! "x"
    = Some [on_listener fB]
  ∧ listeners (after (@RemoveListener plain_runtime "x" fC) w) !! "x"
    = Some [on_listener fB]
  ∧ trace (after (@RemoveListener plain_runtime "x" fC) w)
    = trace w ++ [Emitted "removeListener" (meta_args "x" fC)].
Proof.
  intros fA fB fC w.
  split; [discriminate|]. split; [discriminate|]. split; [discriminate|].
  repeat split; vm_compute; reflexivity.
Qed.

(** ** Registration and dispatch *)

Section Dispatch.
Context `{!Runtime}.
Implicit Types (w : World) (event k : string) (f : Callback) (ls : list Listener).

Lemma register_listeners event (l : Listener) w :
  listeners (register event l w)
  = <[event := default [] (listeners w !! event) ++ [l]]> (listeners w).
Proof.
  unfold register. cbn. destruct (listeners w !! event) eqn:Hk.
  - by rewrite Hk.
  - by rewrite lookup_insert_eq, insert_insert_eq.
Qed.

Lemma register_trace event (l : Listener) w : trace (register event l w) = trace w.
Proof. reflexivity. Qed.

(** The critical section of a removal keeps the set of keys. *)
Lemma removeLocked_keys event f w k :
  listeners (removeLocked event f w).2 !! k = None ↔ listeners w !! k = None.
Proof.
  unfold removeLocked. destruct (listeners w !! event) as [ls|] eqn:Hk; [|done].
  destruct (scan f ls); [|done]. cbn.
  destruct (decide (k = event)) as [->|Hne].
  - rewrite lookup_insert_eq, Hk. split; discriminate.
  - by rewrite lookup_insert_ne.
Qed.

(** A successful removal shortens the sequence by exactly one entry; an
    unsuccessful one changes nothing. *)
Lemma removeLocked_stored event f w :
  if (removeLocked event f w).1
  then S (stored event (removeLocked event f w).2) = stored event w
  else (removeLocked event f w).2 = w.
Proof.
  unfold removeLocked, stored.
  destruct (listeners w !! event) as [ls|] eqn:Hk; cbn; [|reflexivity].
  destruct (scan f ls) as [n|] eqn:Hs; cbn; [|reflexivity].
  rewrite lookup_insert_eq. cbn.
  destruct (scan_Some _ _ _ Hs) as (l1 & v & l2 & (-> & _) & _ & ->).
  rewrite !length_app. cbn. lia.
Qed.

(** What was stored under [event] after a removal was stored before, in the
    same order. *)
Lemma removeLocked_sublist event f w ls' :
  listeners (removeLocked event f w).2 !! event = Some ls' →
  ∃ ls, listeners w !! event = Some ls ∧ ls' `sublist_of` ls.
Proof.
  unfold removeLocked.
  destruct (listeners w !! event) as [ls|] eqn:Hk; cbn; [|by rewrite Hk].
  destruct (scan f ls) as [n|] eqn:Hs; cbn.
  - rewrite lookup_insert_eq. intros [= <-]. exists ls. split; [done|].
    destruct (scan_Some _ _ _ Hs) as (l1 & v & l2 & (-> & _) & _ & ->).
    apply sublist_app; [done|]. by apply sublist_cons.
  - rewrite Hk. intros [= <-]. by exists ls.
Qed.

Lemma consume_keys event (v : Listener) w k :
  listeners (consume event v w).2 !! k = None ↔ listeners w !! k = None.
Proof.
  unfold consume. destruct (once v); [apply removeLocked_keys | done].
Qed.

Lemma consume_frame event (v : Listener) w k :
  k ≠ event ∨ once v = false →
  listeners (consume event v w).2 !! k = listeners w !! k.
Proof.
  unfold consume. intros [Hk | ->]; [|reflexivity].
  destruct (once v); [by apply removeLocked_other | reflexivity].
Qed.

(** The synchronous loop changes the registry through [consume] only. *)
Lemma dispatchSync_keys event args (snapshot : list Listener) w k :
  listeners (dispatchSync event args snapshot w).2 !! k = None
  ↔ listeners w !! k = None.
Proof.
  revert w. induction snapshot as [|v rest IH]; intros w; cbn; [done|].
  unfold seq. pose proof (consume_returns event v w) as Hr.
  pose proof (consume_keys event v w k) as Hk.
  destruct (consume event v w) as [o w1]. cbn in Hr, Hk. subst o.
  unfold invoke at 1. destruct (panics (callback v) args); cbn; [exact Hk|].
  rewrite IH. exact Hk.
Qed.

Lemma dispatchSync_frame event args (snapshot : list Listener) w k :
  k ≠ event ∨ Forall (λ v, once v = false) snapshot →
  listeners (dispatchSync event args snapshot w).2 !! k = listeners w !! k.
Proof.
  revert w. induction snapshot as [|v rest IH]; intros w Hc; cbn; [done|].
  assert (Hv : k ≠ event ∨ once v = false).
  { destruct Hc as [?|Hall]; [by left | right]. by inversion Hall. }
  assert (Hrest : k ≠ event ∨ Forall (λ v, once v = false) rest).
  { destruct Hc as [?|Hall]; [by left | right]. by inversion Hall. }
  unfold seq. pose proof (consume_returns event v w) as Hr.
  pose proof (consume_frame event v w k Hv) as Hk.
  destruct (consume event v w) as [o w1]. cbn in Hr, Hk. subst o.
  unfold invoke at 1. destruct (panics (callback v) args); cbn; [exact Hk|].
  rewrite IH; [exact Hk | exact Hrest].
Qed.

Lemma EmitSync_keys event args w k :
  listeners (after (EmitSync event args) w) !! k = None ↔ listeners w !! k = None.
Proof. unfold after, EmitSync. by rewrite dispatchSync_keys. Qed.

Lemma EmitSync_frame event args w k :
  k ≠ event ∨ Forall (λ v, once v = false) (Listeners event w) →
  listeners (after (EmitSync event args) w) !! k = listeners w !! k.
Proof. intros Hc. unfold after, EmitSync. by rewrite dispatchSync_frame. Qed.

(** The calls made are a prefix of the snapshot, and all of it when no
    callback panics. *)
Lemma performed_prefix args (snapshot : list Listener) :
  ∃ n, performed args snapshot
       = take n ((λ v, Called (callback v) args) <$> snapshot).
Proof.
  induction snapshot as [|v rest [n IH]]; [by exists 0|]. cbn.
  destruct (panics (callback v) args); [by exists 1|].
  exists (S n). cbn. by rewrite IH.
Qed.

Lemma performed_all args (snapshot : list Listener) :
  Forall (λ v, panics (callback v) args = false) snapshot →
  performed args snapshot = (λ v, Called (callback v) args) <$> snapshot.
Proof.
  induction 1 as [|v rest Hv _ IH]; [reflexivity|]. cbn. by rewrite Hv, IH.
Qed.

End Dispatch.

(** ** Order of a synchronous dispatch *)

Section Order.
Context `{!Runtime}.
Implicit Types (w : World) (e event k : string) (f : Callback).

Lemma shouldAdd_refl e : shouldAdd e e = true.
Proof. unfold shouldAdd. rewrite String.eqb_refl, orb_true_r. reflexivity. Qed.

Lemma Listeners_sole_holder e event w :
  sole_holder e w →
  Listeners event w
  = if shouldAdd e event then default [] (listeners w !! e) else [].
Proof.
  intros Hsole. rewrite (Listeners_single event w e).
  - unfold contribution. cbn.
    destruct (listeners w !! e); [reflexivity | by destruct (shouldAdd e event)].
  - intros k lis Hk Hne. rewrite (Hsole k lis Hk Hne).
    unfold contribution. cbn. by destruct (shouldAdd k event).
Qed.

Lemma register_sole_holder e (l : Listener) w :
  sole_holder e w → sole_holder e (register e l w).
Proof.
  intros Hsole k lis. rewrite register_listeners. intros Hk Hne.
  rewrite lookup_insert_ne in Hk by done. by apply (Hsole k).
Qed.

(** With no listener reachable from ["newListener"], [On] registers and
    returns: its emission calls nobody. *)
Lemma On_sole_holder e f w :
  shouldAdd e "newListener" = false → sole_holder e w →
  On e f w = (Returned, record (Emitted "newListener" (meta_args e f))
                               (register e (on_listener f) w)).
Proof.
  intros Hnew Hsole. unfold On, EmitSync. fold (on_listener f).
  rewrite (Listeners_sole_holder e) by by apply register_sole_holder.
  by rewrite Hnew.
Qed.

(** C7.  When ["e"] is the one key that holds listeners, registering [f1]
    then [f2] on it and emitting ["e"] synchronously calls [f1] before [f2]:
    the snapshot is the sequence of the key, in registration order, and the
    loop calls it in that order (stopping at a callback that panics). *)
Theorem EmitSync_fires_in_registration_order e f1 f2 args w :
  shouldAdd e "newListener" = false →
  sole_holder e w →
  let before := default [] (listeners w !! e) in
  let snapshot := before ++ [on_listener f1; on_listener f2] in
  let w2 := calls [On e f1; On e f2] w in
  Listeners e w2 = snapshot
  ∧ trace (after (EmitSync e args) w2)
    = trace w2 ++ Emitted e args :: performed args snapshot
  ∧ (∃ n, performed args snapshot
          = take n (((λ v, Called (callback v) args) <$> before)
                    ++ [Called f1 args; Called f2 args]))
  ∧ (Forall (λ v, panics (callback v) args = false) snapshot →
     performed args snapshot
     = ((λ v, Called (callback v) args) <$> before)
       ++ [Called f1 args; Called f2 args]).
Proof.
  intros Hnew Hsole before snapshot w2.
  assert (Hsole1 : sole_holder e (after (On e f1) w)).
  { unfold after. rewrite On_sole_holder by done. by apply register_sole_holder. }
  assert (Hw2 : listeners w2 !! e = Some snapshot).
  { unfold w2, calls. cbn [foldl]. unfold after at 1.
    rewrite On_sole_holder by done. cbn [snd listeners record].
    rewrite register_listeners, lookup_insert_eq. f_equal.
    unfold after. rewrite On_sole_holder by done. cbn [snd listeners record].
    rewrite register_listeners, lookup_insert_eq. cbn [default].
    unfold snapshot, before, id. by rewrite <- app_assoc. }
  assert (Hsole2 : sole_holder e w2).
  { unfold w2, calls. cbn [foldl]. unfold after at 1.
    rewrite On_sole_holder by done. by apply register_sole_holder. }
  assert (Hsnap : Listeners e w2 = snapshot).
  { rewrite (Listeners_sole_holder e) by done.
    by rewrite shouldAdd_refl, Hw2. }
  split; [exact Hsnap|]. split.
  { rewrite EmitSync_trace. by rewrite Hsnap. }
  assert (Hmap : (λ v, Called (callback v) args) <$> snapshot
                 = ((λ v, Called (callback v) args) <$> before)
                   ++ [Called f1 args; Called f2 args]).
  { unfold snapshot. by rewrite fmap_app. }
  split.
  - destruct (performed_prefix args snapshot) as [n Hn]. exists n.
    by rewrite Hn, Hmap.
  - intros Hall. by rewrite (performed_all _ _ Hall), Hmap.
Qed.

End Order.

Lemma EmitSync_fires_in_registration_order_witness :
  let g := {| fn_code := 9; fn_closure := 0 |} in
  let f1 := {| fn_code := 1; fn_closure := 0 |} in
  let f2 := {| fn_code := 2; fn_closure := 0 |} in
  let w := {| listeners := {[ "e" := [once_listener g]; "drained" := [] ]};
              trace := [] |} in
  shouldAdd "e" "newListener" = false
  ∧ sole_holder "e" w
  ∧ trace (after (@EmitSync plain_runtime "e" [])
             (@calls [@On plain_runtime "e" f1; @On plain_runtime "e" f2] w))
    = [Emitted "newListener" (meta_args "e" f1);
       Emitted "newListener" (meta_args "e" f2);
       Emitted "e" []; Called g []; Called f1 []; Called f2 []].
Proof.
  intros g f1 f2 w.
  assert (Hnew : shouldAdd "e" "newListener" = false) by reflexivity.
  assert (Hsole : sole_holder "e" w).
  { intros k lis Hk Hne. cbn in Hk.
    apply lookup_insert_Some in Hk as [[? _]|[_ Hk]]; [done|].
    by apply lookup_singleton_Some in Hk as [_ <-]. }
  split; [exact Hnew|]. split; [exact Hsole|].
  destruct (@EmitSync_fires_in_registration_order plain_runtime "e" f1 f2 []
              w Hnew Hsole) as (_ & Ht & _).
  rewrite Ht. vm_compute. reflexivity.
Defined.

(** ** Counting listeners along a sequence of calls *)

Section Counting.
Context `{!Runtime}.
Implicit Types (w : World) (pattern event k : string) (f : Callback) (ops : list Op).

(** When no other key matches it, the snapshot of [pattern] is the sequence
    stored under [pattern]. *)
Lemma Listeners_unmatched_elsewhere pattern w :
  unmatched_elsewhere pattern w →
  Listeners pattern w = default [] (listeners w !! pattern).
Proof.
  intros Hun. rewrite (Listeners_single pattern w pattern).
  - unfold contribution. cbn. rewrite shouldAdd_refl.
    by destruct (listeners w !! pattern).
  - intros k lis Hk Hne. unfold contribution. cbn. by rewrite (Hun k lis).
Qed.

Lemma ListenersCount_stored pattern w :
  unmatched_elsewhere pattern w → ListenersCount pattern w = stored pattern w.
Proof.
  intros Hun. unfold ListenersCount, stored.
  by rewrite Listeners_unmatched_elsewhere.
Qed.

(** An emission leaves the sequence of [pattern] alone: it consumes
    once-listeners under the emitted name only, and [pattern] holds none. *)
Lemma EmitSync_preserves pattern event args w :
  unmatched_elsewhere pattern w → all_plain pattern w →
  let w' := after (EmitSync event args) w in
  listeners w' !! pattern = listeners w !! pattern
  ∧ unmatched_elsewhere pattern w' ∧ all_plain pattern w'.
Proof.
  intros Hun Hplain w'.
  assert (Hsame : listeners w' !! pattern = listeners w !! pattern).
  { apply EmitSync_frame. destruct (decide (pattern = event)) as [<-|Hne].
    - right. rewrite Listeners_unmatched_elsewhere by done.
      apply Forall_forall. intros v Hv.
      destruct (listeners w !! pattern) as [lis|] eqn:Hk.
      + by apply (Hplain lis).
      + by apply elem_of_nil in Hv.
    - by left. }
  split; [exact Hsame|]. split.
  - intros k lis Hk Hne.
    destruct (listeners w !! k) as [lis0|] eqn:Hk0.
    + by apply (Hun k lis0).
    + apply (EmitSync_keys event args w k) in Hk0. fold w' in Hk0. congruence.
  - intros lis v. rewrite Hsame. apply Hplain.
Qed.

Lemma register_preserves pattern f w :
  unmatched_elsewhere pattern w → all_plain pattern w →
  let w' := register pattern (on_listener f) w in
  stored pattern w' = S (stored pattern w)
  ∧ unmatched_elsewhere pattern w' ∧ all_plain pattern w'.
Proof.
  intros Hun Hplain w'. unfold w'. split; [|split].
  - unfold stored. rewrite register_listeners, lookup_insert_eq. cbn.
    rewrite length_app. cbn. lia.
  - intros k lis. rewrite register_listeners. intros Hk Hne.
    rewrite lookup_insert_ne in Hk by done. by apply (Hun k lis).
  - intros lis v. rewrite register_listeners, lookup_insert_eq.
    intros [= <-] [Hv | Hv%list_elem_of_singleton]%elem_of_app.
    + destruct (listeners w !! pattern) as [lis|] eqn:Hk.
      * by apply (Hplain lis).
      * by apply elem_of_nil in Hv.
    + by subst v.
Qed.

Lemma removeLocked_preserves pattern f w :
  unmatched_elsewhere pattern w → all_plain pattern w →
  let w' := (removeLocked pattern f w).2 in
  unmatched_elsewhere pattern w' ∧ all_plain pattern w'.
Proof.
  intros Hun Hplain w'. split.
  - intros k lis Hk Hne. unfold w' in Hk.
    rewrite removeLocked_other in Hk by done. by apply (Hun k lis).
  - intros lis v Hk Hv.
    destruct (removeLocked_sublist _ _ _ _ Hk) as (ls & Hls & Hsub).
    apply (Hplain ls v Hls). eapply elem_of_sublist; eauto.
Qed.

(** One call of the sequence: the count moves by the call's own doing. *)
Lemma step_preserves pattern op w :
  unmatched_elsewhere pattern w → all_plain pattern w →
  let w' := after (step pattern op) w in
  stored pattern w' + removals pattern [op] w
  = stored pattern w + adds [op]
  ∧ unmatched_elsewhere pattern w' ∧ all_plain pattern w'.
Proof.
  intros Hun Hplain w'. destruct op as [f|f].
  - destruct (register_preserves pattern f w Hun Hplain) as (Hlen & Hun1 & Hplain1).
    destruct (EmitSync_preserves pattern "newListener" (meta_args pattern f)
                _ Hun1 Hplain1) as (Hsame & Hun2 & Hplain2).
    split; [|by split].
    change (removals pattern [OpOn f] w) with 0.
    change (adds [OpOn f]) with 1.
    unfold stored at 1.
    change (listeners w' !! pattern)
      with (listeners (after (EmitSync "newListener" (meta_args pattern f))
                         (register pattern (on_listener f) w)) !! pattern).
    rewrite Hsame. fold (stored pattern (register pattern (on_listener f) w)).
    rewrite Hlen. lia.
  - pose proof (removeLocked_stored pattern f w) as Hlen.
    destruct (removeLocked_preserves pattern f w Hun Hplain) as (Hun1 & Hplain1).
    change (adds [OpRemoveListener f]) with 0.
    change (removals pattern [OpRemoveListener f] w)
      with ((if (removeLocked pattern f w).1 then 1 else 0) + 0).
    unfold w', step, after, RemoveListener, removeListenerInternal.
    destruct (removeLocked pattern f w) as [[|] w1] eqn:Hr;
      cbn [fst snd andb negb] in Hlen, Hun1, Hplain1 |- *.
    + destruct (EmitSync_preserves pattern "removeListener" (meta_args pattern f)
                  _ Hun1 Hplain1) as (Hsame & Hun2 & Hplain2).
      split; [|by split].
      unfold stored at 1. unfold after in Hsame. rewrite Hsame.
      fold (stored pattern w1). lia.
    + subst w1. split; [lia | by split].
Qed.

Lemma removals_cons pattern op ops w :
  removals pattern (op :: ops) w
  = removals pattern [op] w + removals pattern ops (after (step pattern op) w).
Proof. cbn. lia. Qed.

Lemma adds_cons op ops : adds (op :: ops) = adds [op] + adds ops.
Proof. unfold adds. by destruct op. Qed.

Lemma run_preserves pattern ops w :
  unmatched_elsewhere pattern w → all_plain pattern w →
  stored pattern (run pattern ops w) + removals pattern ops w
  = stored pattern w + adds ops
  ∧ unmatched_elsewhere pattern (run pattern ops w).
Proof.
  revert w. induction ops as [|op ops IH]; intros w Hun Hplain.
  - split; [unfold adds; cbn; lia | exact Hun].
  - destruct (step_preserves pattern op w Hun Hplain) as (Hstep & Hun1 & Hplain1).
    destruct (IH _ Hun1 Hplain1) as (Hrest & Hun2).
    split; [|exact Hun2].
    rewrite removals_cons, adds_cons.
    change (run pattern (op :: ops) w)
      with (run pattern ops (after (step pattern op) w)).
    lia.
Qed.

(** C1.  For a sequence of [On] and [RemoveListener] calls on one exact
    pattern that no other registered pattern matches, [ListenersCount] of the
    pattern is the number of [On] calls minus the number of successful
    removals, and a successful removal takes exactly one entry away. *)
Theorem ListenersCount_adds_minus_removals pattern ops w :
  contains_star pattern = false →
  unmatched_elsewhere pattern w →
  all_plain pattern w →
  ListenersCount pattern (run pattern ops w) + removals pattern ops w
  = ListenersCount pattern w + adds ops
  ∧ (listeners w = ∅ →
     ListenersCount pattern (run pattern ops w)
     = adds ops - removals pattern ops w)
  ∧ (∀ f w0,
       if (removeLocked pattern f w0).1
       then S (stored pattern (removeLocked pattern f w0).2) = stored pattern w0
       else (removeLocked pattern f w0).2 = w0).
Proof.
  intros _ Hun Hplain.
  destruct (run_preserves pattern ops w Hun Hplain) as (Hcount & Hun').
  rewrite !ListenersCount_stored by done.
  split; [exact Hcount|]. split.
  - intros Hempty. unfold stored in Hcount at 2. rewrite Hempty in Hcount.
    rewrite lookup_empty in Hcount. cbn in Hcount. lia.
  - intros f w0. apply removeLocked_stored.
Qed.

End Counting.

Lemma ListenersCount_adds_minus_removals_witness :
  let h := {| fn_code := 3; fn_closure := 0 |} in
  let g := {| fn_code := 9; fn_closure := 0 |} in
  let f1 := {| fn_code := 1; fn_closure := 0 |} in
  let f2 := {| fn_code := 2; fn_closure := 0 |} in
  let w := {| listeners := {[ "testevent" := [on_listener g];
                              "newListener" := [once_listener h] ]};
              trace := [] |} in
  let ops := [OpOn f1; OpOn f2; OpRemoveListener f1; OpRemoveListener f1] in
  contains_star "testevent" = false
  ∧ unmatched_elsewhere "testevent" w
  ∧ all_plain "testevent" w
  ∧ @ListenersCount plain_runtime "testevent" w = 1
  ∧ adds ops = 2
  ∧ @removals plain_runtime "testevent" ops w = 1
  ∧ @ListenersCount plain_runtime "testevent"
      (@run plain_runtime "testevent" ops w) + 1 = 1 + 2.
Proof.
  intros h g f1 f2 w ops.
  assert (Hstar : contains_star "testevent" = false) by reflexivity.
  assert (Hun : unmatched_elsewhere "testevent" w).
  { intros k lis Hk Hne. cbn in Hk.
    apply lookup_insert_Some in Hk as [[? _]|[_ Hk]]; [done|].
    by apply lookup_singleton_Some in Hk as [<- _]. }
  assert (Hplain : all_plain "testevent" w).
  { intros lis v Hk Hv. cbn in Hk. rewrite lookup_insert_eq in Hk.
    injection Hk as <-. by apply list_elem_of_singleton in Hv as ->. }
  destruct (@ListenersCount_adds_minus_removals plain_runtime "testevent" ops
              w Hstar Hun Hplain) as (Hcount & _ & _).
  split; [exact Hstar|]. split; [exact Hun|]. split; [exact Hplain|].
  assert (H0 : @ListenersCount plain_runtime "testevent" w = 1)
    by (vm_compute; reflexivity).
  assert (Ha : adds ops = 2) by (vm_compute; reflexivity).
  assert (Hr : @removals plain_runtime "testevent" ops w = 1)
    by (vm_compute; reflexivity).
  split; [exact H0|]. split; [exact Ha|]. split; [exact Hr|].
  rewrite <- Hr at 1. rewrite Hcount, H0, Ha. reflexivity.
Defined.

(** ** Asynchronous dispatch *)

Section Async.
Context `{!Runtime}.
Implicit Types (w : World) (event : string) (args : list Value).

Lemma consume_listeners_ext event (v : Listener) w1 w2 :
  listeners w1 = listeners w2 →
  listeners (consume event v w1).2 = listeners (consume event v w2).2.
Proof.
  intros Heq. unfold consume. destruct (once v); [|exact Heq].
  unfold removeLocked. rewrite Heq.
  destruct (listeners w2 !! event) as [ls|]; [|exact Heq].
  destruct (scan (callback v) ls); [reflexivity | exact Heq].
Qed.

Lemma consumed_listeners_ext event (snapshot : list Listener) w1 w2 :
  listeners w1 = listeners w2 →
  listeners (consumed event snapshot w1) = listeners (consumed event snapshot w2).
Proof.
  revert w1 w2. induction snapshot as [|v rest IH]; intros w1 w2 Heq; [exact Heq|].
  apply IH. by apply consume_listeners_ext.
Qed.

(** The asynchronous loop never unwinds: it only starts goroutines. *)
Lemma dispatchAsync_returns event args (snapshot : list Listener) w :
  (dispatchAsync event args snapshot w).1 = Returned.
Proof.
  revert w. induction snapshot as [|v rest IH]; intros w; cbn; [reflexivity|].
  unfold seq. pose proof (consume_returns event v w) as Hr.
  destruct (consume event v w) as [o w1]. cbn in Hr. subst o.
  unfold spawn at 1. apply IH.
Qed.

Lemma dispatchAsync_trace event args (snapshot : list Listener) w :
  trace (dispatchAsync event args snapshot w).2
  = trace w ++ ((λ v, Spawned (callback v) args) <$> snapshot).
Proof.
  revert w. induction snapshot as [|v rest IH]; intros w; cbn.
  - symmetry. apply app_nil_r.
  - unfold seq. pose proof (consume_returns event v w) as Hr.
    pose proof (consume_trace event v w) as Ht.
    destruct (consume event v w) as [o w1]. cbn in Hr, Ht. subst o.
    unfold spawn at 1. rewrite IH. cbn. by rewrite Ht, <- app_assoc.
Qed.

Lemma dispatchAsync_listeners event args (snapshot : list Listener) w :
  listeners (dispatchAsync event args snapshot w).2
  = listeners (consumed event snapshot w).
Proof.
  revert w. induction snapshot as [|v rest IH]; intros w; [reflexivity|].
  change (consumed event (v :: rest) w)
    with (consumed event rest (consume event v w).2).
  cbn [dispatchAsync]. unfold seq.
  pose proof (consume_returns event v w) as Hr.
  destruct (consume event v w) as [o w1]. cbn in Hr. subst o.
  unfold spawn at 1. rewrite IH.
  by apply consumed_listeners_ext.
Qed.

Lemma EmitAsync_trace event args w :
  trace (after (EmitAsync event args) w)
  = trace w ++ Emitted event args
            :: ((λ v, Spawned (callback v) args) <$> Listeners event w).
Proof.
  unfold after, EmitAsync. rewrite dispatchAsync_trace. cbn.
  by rewrite <- app_assoc.
Qed.

Lemma scheduled_spec event args w :
  scheduled event args w
  = Emitted event args :: ((λ v, Spawned (callback v) args) <$> Listeners event w).
Proof. unfold scheduled. by rewrite EmitAsync_trace, drop_app_length. Qed.

End Async.

Section AsyncClaim.
Context `{!Runtime}.
Implicit Types (w : World) (event : string) (args : list Value).

(** C9, as amended.  A callback that panics during [EmitAsync] does so in a
    goroutine of its own, started bare: [EmitAsync] returns normally and
    leaves in the registry exactly its own bookkeeping, whatever the
    callbacks do; but no invocation is guarded, and the goroutine of a
    callback that panics ends the process. *)
Theorem EmitAsync_panics_are_not_contained event args w :
  (EmitAsync event args w).1 = Returned
  ∧ listeners (after (EmitAsync event args) w)
    = listeners (consumed event (Listeners event w) w)
  ∧ scheduled event args w
    = Emitted event args
      :: ((λ v, Spawned (callback v) args) <$> Listeners event w)
  ∧ (∀ v : Listener,
       v ∈ Listeners event w → panics (callback v) args = true →
       Spawned (callback v) args ∈ scheduled event args w
       ∧ goroutine_fate (Spawned (callback v) args) = ProcessExits).
Proof.
  split; [apply dispatchAsync_returns|]. split.
  { unfold after, EmitAsync. rewrite dispatchAsync_listeners.
    by apply consumed_listeners_ext. }
  split; [apply scheduled_spec|].
  intros v Hv Hp. split.
  - rewrite scheduled_spec. apply list_elem_of_further.
    apply list_elem_of_fmap. by exists v.
  - cbn. by rewrite Hp.
Qed.

End AsyncClaim.

(** C9, as stated, fails: a listener whose callback panics, emitted to
    asynchronously, brings the process down. *)
Lemma EmitAsync_does_not_isolate_panics :
  ¬ @isolates_panics panicky_runtime "job" [] job_world.
Proof.
  intros Hiso.
  apply (Hiso (Spawned job_callback [])); [|reflexivity].
  vm_compute. apply list_elem_of_further, list_elem_of_here.
Qed.

Lemma EmitAsync_panics_are_not_contained_witness :
  on_listener job_callback ∈ @Listeners panicky_runtime "job" job_world
  ∧ @panics panicky_runtime job_callback [] = true
  ∧ @goroutine_fate panicky_runtime (Spawned job_callback []) = ProcessExits
  ∧ (@EmitAsync panicky_runtime "job" [] job_world).1 = Returned.
Proof.
  assert (Hin : on_listener job_callback ∈ @Listeners panicky_runtime "job" job_world).
  { vm_compute. apply list_elem_of_here. }
  assert (Hp : @panics panicky_runtime job_callback [] = true) by reflexivity.
  destruct (@EmitAsync_panics_are_not_contained panicky_runtime "job" [] job_world)
    as (Hret & _ & _ & Hfate).
  destruct (Hfate (on_listener job_callback) Hin Hp) as (_ & Hexit).
  split; [exact Hin|]. split; [exact Hp|]. split; [exact Hexit | exact Hret].
Defined.

(** ** Once-listeners *)

(** The emit loops remove a once-listener under the EMITTED name, the
    argument [event] of [removeListenerInternal(event, v.callback, true)]:
    when nothing is stored under that name the listener stays where it was
    registered. *)
Lemma consume_absent_key event (v : Listener) w :
  listeners w !! event = None → consume event v w = (Returned, w).
Proof.
  intros Hk. unfold consume, removeLocked. rewrite Hk. by destruct (once v).
Qed.

(** C2, evaluated.  [Once("user.*", f)], then [EmitSync("user.created")]
    twice: both emits call [f], and [f] is still registered and still in
    [Listeners("user.created")].  On the exact name of the tests
    ([Once("testevent", f)], [EmitSync("testevent")] twice) [f] runs once. *)
Theorem Once_on_wildcard_fires_at_every_emit :
  let f := {| fn_code := 1; fn_closure := 0 |} in
  let w := calls [@Once plain_runtime "user.*" f;
                  @EmitSync plain_runtime "user.created" [];
                  @EmitSync plain_runtime "user.created" []] Construct in
  let w' := calls [@Once plain_runtime "testevent" f;
                   @EmitSync plain_runtime "testevent" [];
                   @EmitSync plain_runtime "testevent" []] Construct in
  shouldAdd "user.*" "user.created" = true
  ∧ invocations f (trace w) = 2
  ∧ listeners w !! "user.*" = Some [once_listener f]
  ∧ @Listeners plain_runtime "user.created" w = [once_listener f]
  ∧ invocations f (trace w') = 1
  ∧ @Listeners plain_runtime "testevent" w' = [].
Proof. repeat split; vm_compute; reflexivity. Qed.

(** ** Meta-events *)

Section MetaEvents.
Context `{!Runtime}.
Implicit Types (w : World) (event : string) (f : Callback).

(** C5, evaluated.  [On] and [Once] emit ["newListener"] synchronously once
    the listener is registered, and every listener in the snapshot of
    ["newListener"] is called, but with ONE argument: the slice
    [[]interface{}{event, callback}] that the call hands to the variadic
    parameter of [EmitSync] as a single value. *)
Theorem newListener_handlers_receive_one_slice event f w :
  trace (after (On event f) w)
  = trace w ++ Emitted "newListener" [VSlice [VString event; VFunc f]]
            :: performed [VSlice [VString event; VFunc f]]
                 (Listeners "newListener" (register event (on_listener f) w))
  ∧ trace (after (Once event f) w)
    = trace w ++ Emitted "newListener" [VSlice [VString event; VFunc f]]
              :: performed [VSlice [VString event; VFunc f]]
                   (Listeners "newListener" (register event (once_listener f) w))
  ∧ length (meta_args event f) = 1
  ∧ meta_args event f ≠ [VString event; VFunc f].
Proof.
  split; [|split; [|split; [reflexivity | discriminate]]].
  - exact (EmitSync_trace "newListener" (meta_args event f)
             (register event (on_listener f) w)).
  - exact (EmitSync_trace "newListener" (meta_args event f)
             (register event (once_listener f) w)).
Qed.

End MetaEvents.

(** The handler [h] of ["newListener"], at [On("a", f)]. *)
Example newListener_handler_call :
  let h := {| fn_code := 3; fn_closure := 0 |} in
  let f := {| fn_code := 1; fn_closure := 0 |} in
  let w := after (@On plain_runtime "newListener" h) Construct in
  drop (length (trace w)) (trace (after (@On plain_runtime "a" f) w))
  = [Emitted "newListener" [VSlice [VString "a"; VFunc f]];
     Called h [VSlice [VString "a"; VFunc f]]].
Proof. vm_compute. reflexivity. Qed.

(** ** Release *)

(** C10, evaluated.  [Destruct] returns with the emitter as it was: the
    registry is neither dropped nor emptied, and the emitter keeps working. *)
Theorem Destruct_changes_nothing :
  (∀ w, Destruct w = (Returned, w))
  ∧ (let f := {| fn_code := 1; fn_closure := 0 |} in
     let w := calls [@On plain_runtime "testevent" f; Destruct] Construct in
     listeners w !! "testevent" = Some [on_listener f]
     ∧ @ListenersCount plain_runtime "testevent" w = 1).
Proof. split; [reflexivity|]. split; vm_compute; reflexivity. Qed.

(** ** The scenarios of the test file *)

(** [TestRemoveListener]: one listener left, one call made. *)
Example scenario_TestRemoveListener :
  let fn1 := {| fn_code := 1; fn_closure := 0 |} in
  let fn2 := {| fn_code := 2; fn_closure := 0 |} in
  let w := calls [@On plain_runtime "testevent" fn1;
                  @On plain_runtime "testevent" fn2;
                  @RemoveListener plain_runtime "testevent" fn1;
                  @EmitSync plain_runtime "testevent" []] Construct in
  @ListenersCount plain_runtime "testevent" w = 1
  ∧ invocations fn1 (trace w) = 0
  ∧ invocations fn2 (trace w) = 1.
Proof. repeat split; vm_compute; reflexivity. Qed.

(** * Further properties of the code *)

(** ** The matcher *)

Section MatcherMore.
Implicit Types (e p q x : list rune) (c : rune).

(** The bytes of a string determine it. *)
Lemma runes_inj (s t : string) : runes s = runes t → s = t.
Proof.
  unfold runes. intros Heq.
  rewrite <- (string_of_list_ascii_of_string s), Heq.
  apply string_of_list_ascii_of_string.
Qed.

(** ASCII strings with the same runes are the same string: this is where the
    conversion must lose nothing. *)
Lemma ascii_runes_inj (s t : string) :
  is_ascii s = true → is_ascii t = true → runes s = runes t → s = t.
Proof. intros _ _. apply runes_inj. Qed.

(** X1.  For a key and an event name made of ASCII characters, the three
    tests of the loop of [Listeners] (the key is ["**"], the key is the event
    name, the key contains ['*'] and matches) decide together what
    [eventMatchPattern] alone decides: the two comparisons and the
    [strings.Contains] guard are shortcuts.  (On ASCII strings [[]rune(s)]
    has one rune per byte and loses nothing, which the equality of a
    star-free key with the event name needs.) *)
Theorem shouldAdd_is_eventMatchPattern (eventPattern event : string) :
  is_ascii eventPattern = true →
  is_ascii event = true →
  shouldAdd eventPattern event
  = eventMatchPattern (runes event) (runes eventPattern).
Proof.
  intros Hp He.
  destruct (contains_star eventPattern) eqn:Hs; [by apply shouldAdd_wildcard|].
  pose proof (shouldAdd_exact eventPattern event Hs) as Hadd.
  pose proof (eventMatchPattern_exact (runes event) (runes eventPattern) Hs) as Hm.
  destruct (shouldAdd eventPattern event);
    destruct (eventMatchPattern (runes event) (runes eventPattern)); try reflexivity.
  - destruct Hadd as [Hadd _]. rewrite (Hadd eq_refl) in Hm.
    destruct Hm as [_ Hm]. symmetry. by apply Hm.
  - destruct Hm as [Hm _].
    apply eq_sym, (ascii_runes_inj _ _ Hp He) in Hm; [|reflexivity].
    destruct Hadd as [_ Hadd]. by apply Hadd.
Qed.

(** X2.  A run of literal characters at the head of a pattern must be the head of
    the event name, and the rest of the pattern is matched against what
    follows; so a pattern [pre*] matches exactly the names that begin with
    [pre]. *)
Theorem eventMatchPattern_literal_prefix pre q e :
  existsb is_star pre = false →
  (eventMatchPattern e (pre ++ q) = true
   ↔ ∃ rest, e = pre ++ rest ∧ eventMatchPattern rest q = true)
  ∧ (eventMatchPattern e (pre ++ ["*"%char]) = true ↔ ∃ rest, e = pre ++ rest).
Proof.
  intros Hpre.
  assert (Hgen : ∀ q e, eventMatchPattern e (pre ++ q) = true
                        ↔ ∃ rest, e = pre ++ rest ∧ eventMatchPattern rest q = true).
  { clear q e. intros q. induction pre as [|c pre IH]; intros e; cbn [app].
    - split; [intros H; by exists e | by intros (rest & -> & H)].
    - cbn [existsb] in Hpre. apply orb_false_iff in Hpre as [Hc Hpre].
      apply is_star_false in Hc.
      rewrite (eventMatchPattern_literal _ _ _ Hc).
      destruct e as [|e0 e].
      { split; [discriminate | by intros (rest & ? & _)]. }
      destruct (Ascii.eqb e0 c) eqn:He.
      + apply Ascii.eqb_eq in He as ->. rewrite (IH Hpre e). split.
        * intros (rest & -> & H). by exists rest.
        * intros (rest & [= ->] & H). by exists rest.
      + apply Ascii.eqb_neq in He. split; [discriminate|].
        intros (rest & [= -> _] & _). done. }
  split; [apply Hgen|]. rewrite Hgen. split.
  - intros (rest & -> & _). by exists rest.
  - intros (rest & ->). exists rest. split; [done|].
    apply eventMatchPattern_star_any. exists rest, []. split; [|done].
    symmetry. apply app_nil_r.
Qed.

(** X3.  Matching composes: a name matched by [p1] followed by a name matched by
    [p2] is matched by [p1] followed by [p2]. *)
Theorem eventMatchPattern_app x e p1 p2 :
  eventMatchPattern x p1 = true → eventMatchPattern e p2 = true →
  eventMatchPattern (x ++ e) (p1 ++ p2) = true.
Proof.
  intros H1 H2. revert x H1. induction p1 as [|c p1 IH]; intros x H1.
  - destruct x; [exact H2 | discriminate].
  - cbn [app]. destruct (is_star c) eqn:Hc.
    + apply is_star_true in Hc as ->.
      apply eventMatchPattern_star_any in H1 as (y & x' & -> & H1).
      apply eventMatchPattern_star_any. exists y, (x' ++ e).
      split; [by rewrite app_assoc | by apply IH].
    + apply is_star_false in Hc.
      rewrite (eventMatchPattern_literal c x p1 Hc) in H1.
      rewrite (eventMatchPattern_literal c (x ++ e) (p1 ++ p2) Hc).
      destruct x as [|x0 x]; [discriminate|]. cbn [app].
      destruct (Ascii.eqb x0 c); [by apply IH | discriminate].
Qed.

(** X4.  Consecutive wildcards are one wildcard, and a lone wildcard matches every
    name, the empty one included. *)
Theorem eventMatchPattern_star_collapse e p :
  eventMatchPattern e ("*"%char :: "*"%char :: p)
  = eventMatchPattern e ("*"%char :: p)
  ∧ eventMatchPattern e ["*"%char] = true.
Proof.
  split.
  - apply eq_true_iff_eq. rewrite !eventMatchPattern_star_any. split.
    + intros (x & e' & -> & (y & e'' & -> & H)%eventMatchPattern_star_any).
      exists (x ++ y), e''. by rewrite app_assoc.
    + intros (x & e' & -> & H). exists [], (x ++ e'). split; [done|].
      apply eventMatchPattern_star_any. by exists x, e'.
  - apply eventMatchPattern_star_any. exists e, []. split; [|done].
    symmetry. apply app_nil_r.
Qed.

End MatcherMore.

Lemma shouldAdd_is_eventMatchPattern_witness :
  is_ascii "newListener" = true ∧ is_ascii "user.created" = true
  ∧ shouldAdd "newListener" "user.created"
    = eventMatchPattern (runes "user.created") (runes "newListener")
  ∧ is_ascii "user.*" = true
  ∧ shouldAdd "user.*" "user.created"
    = eventMatchPattern (runes "user.created") (runes "user.*").
Proof.
  split; [reflexivity|]. split; [reflexivity|]. split.
  - apply (shouldAdd_is_eventMatchPattern "newListener" "user.created"); reflexivity.
  - split; [reflexivity|].
    apply (shouldAdd_is_eventMatchPattern "user.*" "user.created"); reflexivity.
Defined.

Lemma eventMatchPattern_literal_prefix_witness :
  existsb is_star (runes "user.") = false
  ∧ (eventMatchPattern (runes "user.created") (runes "user." ++ ["*"%char]) = true
     ↔ ∃ rest, runes "user.created" = runes "user." ++ rest).
Proof.
  split; [reflexivity|].
  apply (eventMatchPattern_literal_prefix (runes "user.") [] (runes "user.created")).
  reflexivity.
Defined.

Lemma eventMatchPattern_app_witness :
  eventMatchPattern (runes "user.") (runes "us*.") = true
  ∧ eventMatchPattern (runes "created") (runes "*ed") = true
  ∧ eventMatchPattern (runes "user." ++ runes "created")
      (runes "us*." ++ runes "*ed") = true.
Proof.
  split; [reflexivity|]. split; [reflexivity|].
  apply (eventMatchPattern_app (runes "user.") (runes "created")
           (runes "us*.") (runes "*ed")); reflexivity.
Defined.

(** ** The snapshot, whatever the order of the map *)

(** X5.  [Listeners] depends on the order in which [range] walks the map only up
    to a permutation: two walks give the same listeners, the same number of
    times, so [ListenersCount] is the same; and a listener is in the snapshot
    exactly when it is stored under a key that passes the test. *)
Theorem Listeners_any_order (rt1 rt2 : Runtime) (event : string) (w : World) :
  @Listeners rt1 event w ≡ₚ @Listeners rt2 event w
  ∧ @ListenersCount rt1 event w = @ListenersCount rt2 event w
  ∧ (∀ v : Listener,
       v ∈ @Listeners rt1 event w
       ↔ ∃ k lis, listeners w !! k = Some lis ∧ shouldAdd k event = true ∧ v ∈ lis).
Proof.
  assert (Hperm : @Listeners rt1 event w ≡ₚ @Listeners rt2 event w).
  { rewrite !Listeners_bind.
    rewrite (@range_order_perm rt1), (@range_order_perm rt2). reflexivity. }
  split; [exact Hperm|]. split.
  - unfold ListenersCount. by rewrite Hperm.
  - intros v. apply elem_of_Listeners.
Qed.

Section EmitMore.
Context `{!Runtime}.
Implicit Types (w : World) (event k : string) (args : list Value).

Lemma Listeners_nil event w :
  (∀ k lis, listeners w !! k = Some lis → shouldAdd k event = true → lis = []) →
  Listeners event w = [].
Proof.
  intros Hnone. rewrite Listeners_bind. apply bind_nil.
  intros [k lis] Hk%elem_of_range_order. unfold contribution. cbn.
  destruct (shouldAdd k event) eqn:Hs; [by apply (Hnone k) | reflexivity].
Qed.

(** X6.  Emitting a name that no stored listener answers to is harmless: both
    emits return normally, call and start nothing, and leave the registry as
    it was. *)
Theorem emit_without_listeners event args w :
  (∀ k lis, listeners w !! k = Some lis → shouldAdd k event = true → lis = []) →
  EmitSync event args w = (Returned, record (Emitted event args) w)
  ∧ EmitAsync event args w = (Returned, record (Emitted event args) w).
Proof.
  intros Hnone%Listeners_nil. unfold EmitSync, EmitAsync. by rewrite Hnone.
Qed.

Lemma dispatchSync_outcome event args (snapshot : list Listener) w :
  (dispatchSync event args snapshot w).1
  = if existsb (λ v, panics (callback v) args) snapshot then Panicked else Returned.
Proof.
  revert w. induction snapshot as [|v rest IH]; intros w; cbn; [reflexivity|].
  unfold seq. pose proof (consume_returns event v w) as Hr.
  destruct (consume event v w) as [o w1]. cbn in Hr. subst o.
  unfold invoke at 1. destruct (panics (callback v) args); cbn; [reflexivity|].
  apply IH.
Qed.

Lemma performed_until_panic args (pre post : list Listener) (v : Listener) :
  Forall (λ u, panics (callback u) args = false) pre →
  panics (callback v) args = true →
  performed args (pre ++ v :: post)
  = ((λ u, Called (callback u) args) <$> pre) ++ [Called (callback v) args].
Proof.
  intros Hpre Hv. induction Hpre as [|u pre Hu _ IH]; cbn.
  - by rewrite Hv.
  - by rewrite Hu, IH.
Qed.

(** X7.  A panic of a callback unwinds [EmitSync]: the call panics exactly when
    some callback of the snapshot does, and then the listeners behind the
    first one that panicked are not called. *)
Theorem EmitSync_stops_at_first_panic event args w :
  (EmitSync event args w).1
  = (if existsb (λ v, panics (callback v) args) (Listeners event w)
     then Panicked else Returned)
  ∧ (∀ pre v post,
       Listeners event w = pre ++ v :: post →
       Forall (λ u, panics (callback u) args = false) pre →
       panics (callback v) args = true →
       trace (after (EmitSync event args) w)
       = trace w ++ Emitted event args
                 :: ((λ u, Called (callback u) args) <$> pre)
                 ++ [Called (callback v) args]).
Proof.
  split; [apply dispatchSync_outcome|].
  intros pre v post Hsnap Hpre Hv.
  by rewrite EmitSync_trace, Hsnap, performed_until_panic.
Qed.

Lemma consumed_frame event (snapshot : list Listener) w k :
  k ≠ event → listeners (consumed event snapshot w) !! k = listeners w !! k.
Proof.
  intros Hk. revert w. induction snapshot as [|v rest IH]; intros w; [reflexivity|].
  change (consumed event (v :: rest) w)
    with (consumed event rest (consume event v w).2).
  rewrite IH. apply consume_frame. by left.
Qed.

Lemma consumed_keys event (snapshot : list Listener) w k :
  listeners (consumed event snapshot w) !! k = None ↔ listeners w !! k = None.
Proof.
  revert w. induction snapshot as [|v rest IH]; intros w; [reflexivity|].
  change (consumed event (v :: rest) w)
    with (consumed event rest (consume event v w).2).
  rewrite IH. apply consume_keys.
Qed.

Lemma EmitAsync_listeners event args w :
  listeners (after (EmitAsync event args) w)
  = listeners (consumed event (Listeners event w) w).
Proof.
  unfold after, EmitAsync. rewrite dispatchAsync_listeners.
  by apply consumed_listeners_ext.
Qed.

(** X8.  An emit never registers anything and never deletes a key, and the only
    sequence it can change is the one stored under the emitted name itself:
    a once-listener that answered through another key (a wildcard pattern,
    ["**"]) is still stored under that key afterwards. *)
Theorem emit_changes_only_the_emitted_key event args w :
  (∀ k, listeners (after (EmitSync event args) w) !! k = None
        ↔ listeners w !! k = None)
  ∧ (∀ k, listeners (after (EmitAsync event args) w) !! k = None
          ↔ listeners w !! k = None)
  ∧ (∀ k, k ≠ event →
          listeners (after (EmitSync event args) w) !! k = listeners w !! k
          ∧ listeners (after (EmitAsync event args) w) !! k = listeners w !! k).
Proof.
  split; [intros k; apply EmitSync_keys|]. split.
  - intros k. rewrite EmitAsync_listeners. apply consumed_keys.
  - intros k Hk. split.
    + apply EmitSync_frame. by left.
    + rewrite EmitAsync_listeners. by apply consumed_frame.
Qed.

(** X9.  After [RemoveAllListeners(nil)] no event name has a listener.  After
    [RemoveAllListeners(k)] an event name keeps the listeners it had through
    the other keys: deleting the key ["a"] does not silence ["a"] while a
    pattern that matches it is registered. *)
Theorem Listeners_after_RemoveAllListeners w :
  (∀ event, Listeners event (after (RemoveAllListeners None) w) = []
            ∧ ListenersCount event (after (RemoveAllListeners None) w) = 0)
  ∧ (∀ k event (v : Listener),
       v ∈ Listeners event (after (RemoveAllListeners (Some k)) w)
       ↔ ∃ k' lis, k' ≠ k ∧ listeners w !! k' = Some lis
                   ∧ shouldAdd k' event = true ∧ v ∈ lis).
Proof.
  split.
  - intros event.
    assert (Hnil : Listeners event (after (RemoveAllListeners None) w) = []).
    { apply Listeners_nil. intros k lis Hk. cbn in Hk.
      by rewrite lookup_empty in Hk. }
    split; [exact Hnil|]. unfold ListenersCount. by rewrite Hnil.
  - intros k event v. rewrite elem_of_Listeners.
    assert (Hlook : ∀ k', listeners (after (RemoveAllListeners (Some k)) w) !! k'
                          = if decide (k' = k) then None else listeners w !! k').
    { intros k'. unfold after, RemoveAllListeners.
      destruct (listeners w !! k) as [ls|] eqn:Hk; cbn.
      - destruct (decide (k' = k)) as [->|Hne];
          [apply lookup_delete_eq | by apply lookup_delete_ne].
      - destruct (decide (k' = k)) as [->|Hne]; done. }
    split.
    + intros (k' & lis & Hk' & Hs & Hv). rewrite Hlook in Hk'.
      destruct (decide (k' = k)); [discriminate|]. by exists k', lis.
    + intros (k' & lis & Hne & Hk' & Hs & Hv). exists k', lis.
      rewrite Hlook. by destruct (decide (k' = k)).
Qed.

End EmitMore.

(** ** Once-listeners under the emitted name *)

Section Consumption.
Context `{!Runtime}.
Implicit Types (w : World) (event k : string) (args : list Value)
         (ls kept rest : list Listener) (v : Listener).

Lemma first_match_NoDup kept v rest :
  NoDup (pointers (kept ++ v :: rest)) →
  first_match (callback v) (kept ++ v :: rest) kept v rest.
Proof.
  intros Hnd. split; [reflexivity|]. split; [reflexivity|].
  unfold pointers in Hnd. rewrite fmap_app in Hnd. cbn in Hnd.
  apply NoDup_app in Hnd as (_ & Hdisj & _).
  apply Forall_forall. intros u Hu Heq.
  apply (Hdisj (Pointer (callback u))).
  - apply list_elem_of_fmap. by exists u.
  - rewrite Heq. apply list_elem_of_here.
Qed.

Lemma NoDup_pointers_drop kept v rest :
  NoDup (pointers (kept ++ v :: rest)) → NoDup (pointers (kept ++ rest)).
Proof.
  unfold pointers. rewrite !fmap_app. cbn. rewrite !NoDup_app, NoDup_cons.
  intros (Hk & Hdisj & _ & Hr). split; [exact Hk|]. split; [|exact Hr].
  intros x Hx Hx'. apply (Hdisj x Hx). by apply list_elem_of_further.
Qed.

Lemma consume_at_head event kept v rest w :
  listeners w !! event = Some (kept ++ v :: rest) →
  NoDup (pointers (kept ++ v :: rest)) →
  listeners (consume event v w).2 !! event
  = Some (kept ++ (if once v then [] else [v]) ++ rest).
Proof.
  intros Hk Hnd. unfold consume. destruct (once v); [|exact Hk].
  rewrite (removeLocked_found _ _ _ _ _ _ _ Hk (first_match_NoDup _ _ _ Hnd)).
  cbn. apply lookup_insert_eq.
Qed.

Lemma dispatchSync_at_head event args rest kept w :
  listeners w !! event = Some (kept ++ rest) →
  NoDup (pointers (kept ++ rest)) →
  listeners (dispatchSync event args rest w).2 !! event
  = Some (kept ++ survivors args rest).
Proof.
  revert kept w. induction rest as [|v rest IH]; intros kept w Hk Hnd; [exact Hk|].
  cbn [dispatchSync survivors]. unfold seq.
  pose proof (consume_returns event v w) as Hr.
  pose proof (consume_at_head event kept v rest w Hk Hnd) as Hc.
  destruct (consume event v w) as [o w1]. cbn in Hr, Hc. subst o.
  unfold invoke at 1. destruct (panics (callback v) args); cbn; [exact Hc|].
  destruct (once v); cbn in Hc |- *.
  - apply IH; [exact Hc | by eapply NoDup_pointers_drop].
  - rewrite (cons_middle v kept), app_assoc.
    rewrite (cons_middle v kept), app_assoc in Hc, Hnd. by apply IH.
Qed.

Lemma consumed_at_head event rest kept w :
  listeners w !! event = Some (kept ++ rest) →
  NoDup (pointers (kept ++ rest)) →
  listeners (consumed event rest w) !! event = Some (kept ++ permanent rest).
Proof.
  revert kept w. induction rest as [|v rest IH]; intros kept w Hk Hnd; [exact Hk|].
  change (consumed event (v :: rest) w)
    with (consumed event rest (consume event v w).2).
  pose proof (consume_at_head event kept v rest w Hk Hnd) as Hc.
  cbn [permanent]. destruct (once v); cbn in Hc.
  - apply IH; [exact Hc | by eapply NoDup_pointers_drop].
  - rewrite (cons_middle v kept), app_assoc.
    rewrite (cons_middle v kept), app_assoc in Hc, Hnd. by apply IH.
Qed.

Lemma survivors_permanent args ls :
  Forall (λ v, panics (callback v) args = false) ls →
  survivors args ls = permanent ls.
Proof.
  induction 1 as [|v ls Hv _ IH]; [reflexivity|]. cbn. rewrite Hv, IH.
  by destruct (once v).
Qed.

Lemma unmatched_elsewhere_same_keys event w w' :
  (∀ k, listeners w' !! k = None ↔ listeners w !! k = None) →
  unmatched_elsewhere event w → unmatched_elsewhere event w'.
Proof.
  intros Hkeys Hun k lis Hk Hne.
  destruct (listeners w !! k) as [lis0|] eqn:Hk0; [by apply (Hun k lis0)|].
  apply Hkeys in Hk0. congruence.
Qed.

(** X10.  [EmitSync] on a name that only its own key answers to, whose listeners
    have distinct code pointers: every listener is called in order up to a
    panic, every once-listener whose turn came is gone from the registry,
    the others stay in order; the next snapshot is what is left, so a
    once-listener is not called again. *)
Theorem EmitSync_consumes_once_listeners event args w ls :
  listeners w !! event = Some ls →
  unmatched_elsewhere event w →
  NoDup (pointers ls) →
  let w' := after (EmitSync event args) w in
  trace w' = trace w ++ Emitted event args :: performed args ls
  ∧ listeners w' !! event = Some (survivors args ls)
  ∧ Listeners event w' = survivors args ls
  ∧ (Forall (λ v, panics (callback v) args = false) ls →
     survivors args ls = permanent ls).
Proof.
  intros Hk Hun Hnd w'.
  assert (Hsnap : Listeners event w = ls).
  { rewrite Listeners_unmatched_elsewhere by done. by rewrite Hk. }
  assert (Hleft : listeners w' !! event = Some (survivors args ls)).
  { unfold w', after, EmitSync. rewrite Hsnap.
    by apply (dispatchSync_at_head event args ls []). }
  split; [|split; [exact Hleft|split]].
  - unfold w'. by rewrite EmitSync_trace, Hsnap.
  - rewrite Listeners_unmatched_elsewhere; [by rewrite Hleft|].
    eapply unmatched_elsewhere_same_keys; [|exact Hun].
    intros k. apply EmitSync_keys.
  - apply survivors_permanent.
Qed.

(** X11.  [EmitAsync] under the same conditions: a goroutine is started for every
    listener of the sequence, in order, and the once-listeners are gone from
    the registry when the call returns, whatever the callbacks will do. *)
Theorem EmitAsync_consumes_once_listeners event args w ls :
  listeners w !! event = Some ls →
  unmatched_elsewhere event w →
  NoDup (pointers ls) →
  let w' := after (EmitAsync event args) w in
  trace w' = trace w ++ Emitted event args
                     :: ((λ v, Spawned (callback v) args) <$> ls)
  ∧ listeners w' !! event = Some (permanent ls)
  ∧ Listeners event w' = permanent ls.
Proof.
  intros Hk Hun Hnd w'.
  assert (Hsnap : Listeners event w = ls).
  { rewrite Listeners_unmatched_elsewhere by done. by rewrite Hk. }
  assert (Hleft : listeners w' !! event = Some (permanent ls)).
  { unfold w'. rewrite EmitAsync_listeners, Hsnap.
    by apply (consumed_at_head event ls []). }
  split; [|split; [exact Hleft|]].
  - unfold w'. by rewrite EmitAsync_trace, Hsnap.
  - rewrite Listeners_unmatched_elsewhere; [by rewrite Hleft|].
    eapply unmatched_elsewhere_same_keys; [|exact Hun].
    intros k. unfold w'. rewrite EmitAsync_listeners. apply consumed_keys.
Qed.

End Consumption.

(** ** Registration *)

Section RegistrationMore.
Context `{!Runtime}.
Implicit Types (w : World) (event k : string) (f g : Callback) (args : list Value).

Lemma registered_lookup event (l : Listener) w k :
  k ≠ "newListener" →
  listeners (after (EmitSync "newListener" (meta_args event (callback l)))
               (register event l w)) !! k
  = if decide (k = event)
    then Some (default [] (listeners w !! event) ++ [l])
    else listeners w !! k.
Proof.
  intros Hk. rewrite EmitSync_frame by by left.
  rewrite register_listeners.
  destruct (decide (k = event)) as [->|Hne];
    [apply lookup_insert_eq | by apply lookup_insert_ne].
Qed.

(** X12.  [On] and [Once] append to the sequence of their key, creating it when it
    is missing and keeping what is there (the same callback may be stored
    several times); of the other keys only ["newListener"], whose
    once-listeners the emission consumes, can change.  This holds also when
    a handler of ["newListener"] panics. *)
Theorem On_appends event f w :
  event ≠ "newListener" →
  listeners (after (On event f) w) !! event
  = Some (default [] (listeners w !! event) ++ [on_listener f])
  ∧ listeners (after (Once event f) w) !! event
    = Some (default [] (listeners w !! event) ++ [once_listener f])
  ∧ (∀ k, k ≠ event → k ≠ "newListener" →
          listeners (after (On event f) w) !! k = listeners w !! k
          ∧ listeners (after (Once event f) w) !! k = listeners w !! k).
Proof.
  intros Hev.
  pose proof (registered_lookup event (on_listener f) w) as Hon.
  pose proof (registered_lookup event (once_listener f) w) as Honce.
  split; [|split].
  - etrans; [exact (Hon event Hev)|]. by rewrite decide_True.
  - etrans; [exact (Honce event Hev)|]. by rewrite decide_True.
  - intros k Hk Hnew. split.
    + etrans; [exact (Hon k Hnew)|]. by rewrite decide_False.
    + etrans; [exact (Honce k Hnew)|]. by rewrite decide_False.
Qed.

(** X13.  A handler registered on ["newListener"] is already in the snapshot of
    the emission that announces it: when no handler of that snapshot panics,
    it is called with its own registration. *)
Theorem newListener_handler_sees_itself f w :
  let w1 := register "newListener" (on_listener f) w in
  on_listener f ∈ Listeners "newListener" w1
  ∧ (Forall (λ v, panics (callback v) (meta_args "newListener" f) = false)
            (Listeners "newListener" w1) →
     Called f (meta_args "newListener" f) ∈ trace (after (On "newListener" f) w)).
Proof.
  intros w1.
  assert (Hin : on_listener f ∈ Listeners "newListener" w1).
  { apply elem_of_Listeners.
    exists "newListener", (default [] (listeners w !! "newListener") ++ [on_listener f]).
    split; [|split; [reflexivity|]].
    - unfold w1. rewrite register_listeners. apply lookup_insert_eq.
    - apply elem_of_app. right. apply list_elem_of_here. }
  split; [exact Hin|]. intros Hall.
  change (after (On "newListener" f) w)
    with (after (EmitSync "newListener" (meta_args "newListener" f)) w1).
  rewrite EmitSync_trace, (performed_all _ _ Hall).
  apply elem_of_app. right. apply list_elem_of_further.
  apply list_elem_of_fmap. by exists (on_listener f).
Qed.

(** X14.  [On] followed by [RemoveListener] of the same callback on the same name.
    When no stored listener shares the callback's code pointer the sequence
    is what it was, and a key that was missing now holds the empty sequence.
    When one does, the removal takes that earlier listener and the new
    registration stays, at the end. *)
Theorem On_then_RemoveListener event f w :
  event ≠ "newListener" → event ≠ "removeListener" →
  let ls0 := default [] (listeners w !! event) in
  let w' := calls [On event f; RemoveListener event f] w in
  (no_match f ls0 → listeners w' !! event = Some ls0)
  ∧ (∀ l1 u l2, first_match f ls0 l1 u l2 →
                listeners w' !! event = Some (l1 ++ l2 ++ [on_listener f])).
Proof.
  intros Hnew Hrem ls0 w'.
  set (w1 := after (On event f) w).
  assert (H1 : listeners w1 !! event = Some (ls0 ++ [on_listener f])).
  { etrans; [exact (registered_lookup event (on_listener f) w event Hnew)|].
    by rewrite decide_True. }
  assert (Hrm : ∀ l1 u l2, first_match f (ls0 ++ [on_listener f]) l1 u l2 →
                           listeners w' !! event = Some (l1 ++ l2)).
  { intros l1 u l2 Hm.
    change w' with (after (RemoveListener event f) w1).
    unfold after, RemoveListener, removeListenerInternal.
    rewrite (removeLocked_found _ _ _ _ _ _ _ H1 Hm). cbn [andb negb].
    fold (after (EmitSync "removeListener" (meta_args event f))
            (set_listeners (<[event:=l1 ++ l2]> (listeners w1)) w1)).
    rewrite EmitSync_frame by by left.
    apply lookup_insert_eq. }
  split.
  - intros Hno. rewrite (Hrm ls0 (on_listener f) []); [by rewrite app_nil_r|].
    split; [reflexivity|]. split; [reflexivity | exact Hno].
  - intros l1 u l2 (Hls & Hu & Hl1). apply (Hrm l1 u (l2 ++ [on_listener f])).
    split; [|by split]. rewrite Hls, <- app_assoc. reflexivity.
Qed.

(** X15.  The same code pointer registered with [On] and then with [Once] on one
    name: the first synchronous emit calls both and takes the [On]
    registration out of the registry, because the consumption of the
    once-listener removes the first listener with its code pointer; the
    once-listener is still registered. *)
Theorem once_consumption_takes_earlier_registration event f g args w :
  listeners w !! event = Some [on_listener f; once_listener g] →
  unmatched_elsewhere event w →
  Pointer f = Pointer g →
  panics f args = false →
  let w' := after (EmitSync event args) w in
  trace w' = trace w ++ [Emitted event args; Called f args; Called g args]
  ∧ listeners w' !! event = Some [once_listener g]
  ∧ Listeners event w' = [once_listener g].
Proof.
  intros Hk Hun Hptr Hf w'.
  assert (Hsnap : Listeners event w = [on_listener f; once_listener g]).
  { rewrite Listeners_unmatched_elsewhere by done. by rewrite Hk. }
  assert (Hleft : listeners w' !! event = Some [once_listener g]).
  { unfold w', after, EmitSync. rewrite Hsnap.
    cbn [dispatchSync]. unfold seq, consume at 1, invoke at 1. cbn [once on_listener callback].
    rewrite Hf. unfold consume. cbn [once once_listener callback].
    rewrite (removeLocked_found event g _ [on_listener f; once_listener g]
               [] (on_listener f) [once_listener g]).
    - cbn [snd]. unfold invoke.
      destruct (panics g args); cbn; apply lookup_insert_eq.
    - exact Hk.
    - split; [reflexivity|]. split; [exact Hptr | constructor]. }
  split; [|split; [exact Hleft|]].
  - unfold w'. rewrite EmitSync_trace, Hsnap. cbn. rewrite Hf.
    by destruct (panics g args).
  - rewrite Listeners_unmatched_elsewhere; [by rewrite Hleft|].
    eapply unmatched_elsewhere_same_keys; [|exact Hun].
    intros k. apply EmitSync_keys.
Qed.

End RegistrationMore.

(** ** Counts of listeners across the keys *)

Section CountsMore.
Context `{!Runtime}.
Implicit Types (w : World) (event k a b : string) (f : Callback).

Lemma contribution_length event k (ls : list Listener) :
  length (contribution event (k, ls)) = if shouldAdd k event then length ls else 0.
Proof. unfold contribution. cbn. by destruct (shouldAdd k event). Qed.

(** The count of an event name, one key set apart. *)
Lemma ListenersCount_delete event w k :
  ListenersCount event w
  = length (contribution event (k, default [] (listeners w !! k)))
    + ListenersCount event (set_listeners (delete k (listeners w)) w).
Proof.
  unfold ListenersCount. rewrite !Listeners_bind, !range_order_perm. cbn.
  destruct (listeners w !! k) as [ls|] eqn:Hk; cbn.
  - rewrite <- (map_to_list_delete (listeners w) k ls Hk) at 1.
    by rewrite bind_cons, length_app.
  - rewrite (delete_id _ _ Hk). rewrite contribution_length.
    by destruct (shouldAdd k event).
Qed.

(** Two registries that differ at the key [a], and at a key [b] that does
    not answer to the event name, count the same but for [a]. *)
Lemma ListenersCount_frame event w w' a b :
  shouldAdd b event = false →
  (∀ k, k ≠ a → k ≠ b → listeners w' !! k = listeners w !! k) →
  ListenersCount event w'
  + length (contribution event (a, default [] (listeners w !! a)))
  = ListenersCount event w
    + length (contribution event (a, default [] (listeners w' !! a))).
Proof.
  intros Hb Hsame.
  rewrite (ListenersCount_delete event w a), (ListenersCount_delete event w' a).
  rewrite (ListenersCount_delete event (set_listeners _ w) b).
  rewrite (ListenersCount_delete event (set_listeners _ w') b).
  rewrite !(contribution_length event b), Hb. cbn [set_listeners listeners].
  assert (Heq : delete b (delete a (listeners w'))
                = delete b (delete a (listeners w))).
  { apply map_eq. intros k. rewrite !lookup_delete.
    destruct (decide (b = k)); [done|]. destruct (decide (a = k)); [done|].
    by apply Hsame. }
  rewrite Heq. unfold ListenersCount, Listeners. cbn. lia.
Qed.

Lemma shouldAdd_star_free_key k event :
  contains_star k = false → k ≠ event → shouldAdd k event = false.
Proof.
  intros Hs Hne. destruct (shouldAdd k event) eqn:Ha; [|reflexivity].
  by apply (shouldAdd_exact _ _ Hs) in Ha.
Qed.

(** X16.  Registering under a pattern raises by one the count of every event name
    the pattern answers to, wildcards included, and leaves the count of every
    other name as it was (the name ["newListener"] apart, whose
    once-listeners the emission consumes). *)
Theorem ListenersCount_after_On pattern f event w :
  pattern ≠ "newListener" → event ≠ "newListener" →
  ListenersCount event (after (On pattern f) w)
  = ListenersCount event w + (if shouldAdd pattern event then 1 else 0)
  ∧ ListenersCount event (after (Once pattern f) w)
    = ListenersCount event w + (if shouldAdd pattern event then 1 else 0).
Proof.
  intros Hp Hev.
  assert (Hnl : shouldAdd "newListener" event = false).
  { apply shouldAdd_star_free_key; [reflexivity | done]. }
  assert (Hgen : ∀ l : Listener,
            ListenersCount event
              (after (EmitSync "newListener" (meta_args pattern (callback l)))
                 (register pattern l w))
            = ListenersCount event w + (if shouldAdd pattern event then 1 else 0)).
  { intros l.
    pose proof (registered_lookup pattern l w) as Hlook.
    pose proof (ListenersCount_frame event w
                  (after (EmitSync "newListener" (meta_args pattern (callback l)))
                     (register pattern l w))
                  pattern "newListener" Hnl) as Hfr.
    rewrite (Hlook pattern Hp), decide_True in Hfr by done.
    rewrite !contribution_length in Hfr. cbn [from_option] in Hfr.
    unfold id in Hfr. rewrite length_app in Hfr. cbn [length] in Hfr.
    assert (Hsame : ∀ k, k ≠ pattern → k ≠ "newListener" →
              listeners (after (EmitSync "newListener" (meta_args pattern (callback l)))
                           (register pattern l w)) !! k = listeners w !! k).
    { intros k Hk1 Hk2. rewrite (Hlook k Hk2). by rewrite decide_False. }
    specialize (Hfr Hsame). destruct (shouldAdd pattern event); lia. }
  split.
  - exact (Hgen (on_listener f)).
  - exact (Hgen (once_listener f)).
Qed.

(** X17.  A successful [RemoveListener] lowers by one the count of every event
    name its pattern answers to; an unsuccessful one changes no count (the
    name ["removeListener"] apart). *)
Theorem ListenersCount_after_RemoveListener pattern f event w :
  pattern ≠ "removeListener" → event ≠ "removeListener" →
  ListenersCount event (after (RemoveListener pattern f) w)
  + (if (removeLocked pattern f w).1 && shouldAdd pattern event then 1 else 0)
  = ListenersCount event w.
Proof.
  intros Hp Hev.
  assert (Hrl : shouldAdd "removeListener" event = false).
  { apply shouldAdd_star_free_key; [reflexivity | done]. }
  pose proof (removeLocked_stored pattern f w) as Hlen.
  assert (Hlook : ∀ k, k ≠ "removeListener" →
            listeners (after (RemoveListener pattern f) w) !! k
            = listeners (removeLocked pattern f w).2 !! k).
  { intros k Hk. unfold after, RemoveListener, removeListenerInternal.
    destruct (removeLocked pattern f w) as [[|] w1]; cbn [andb negb fst snd];
      [|reflexivity].
    apply EmitSync_frame. by left. }
  pose proof (ListenersCount_frame event w (after (RemoveListener pattern f) w)
                pattern "removeListener" Hrl) as Hfr.
  rewrite (Hlook pattern Hp) in Hfr. rewrite !contribution_length in Hfr.
  assert (Hsame : ∀ k, k ≠ pattern → k ≠ "removeListener" →
            listeners (after (RemoveListener pattern f) w) !! k = listeners w !! k).
  { intros k Hk1 Hk2. rewrite (Hlook k Hk2). by apply removeLocked_other. }
  specialize (Hfr Hsame). unfold stored in Hlen.
  destruct (removeLocked pattern f w) as [[|] w1]; cbn [fst snd andb] in Hlen, Hfr |- *.
  - destruct (shouldAdd pattern event); lia.
  - subst w1. destruct (shouldAdd pattern event); lia.
Qed.

(** X18.  [RemoveListener] never deletes a key, not even when it removes the last
    listener of a sequence, and [On]/[Once] create no key but their own. *)
Theorem registry_keys pattern f w :
  (∀ k, listeners (after (RemoveListener pattern f) w) !! k = None
        ↔ listeners w !! k = None)
  ∧ (∀ k, listeners (after (On pattern f) w) !! k = None
          ↔ k ≠ pattern ∧ listeners w !! k = None)
  ∧ (∀ k, listeners (after (Once pattern f) w) !! k = None
          ↔ k ≠ pattern ∧ listeners w !! k = None).
Proof.
  assert (Hreg : ∀ (l : Listener) k,
            listeners (after (EmitSync "newListener" (meta_args pattern (callback l)))
                         (register pattern l w)) !! k = None
            ↔ k ≠ pattern ∧ listeners w !! k = None).
  { intros l k. rewrite EmitSync_keys, register_listeners.
    destruct (decide (k = pattern)) as [->|Hne].
    - rewrite lookup_insert_eq. split; [discriminate | by intros [? _]].
    - rewrite lookup_insert_ne by done. by split; [|intros [_ ?]]. }
  split; [|split].
  - intros k. unfold after, RemoveListener, removeListenerInternal.
    pose proof (removeLocked_keys pattern f w k) as Hk.
    destruct (removeLocked pattern f w) as [[|] w1]; cbn [andb negb fst snd] in Hk |- *;
      [|exact Hk].
    fold (after (EmitSync "removeListener" (meta_args pattern f)) w1).
    by rewrite EmitSync_keys.
  - intros k. exact (Hreg (on_listener f) k).
  - intros k. exact (Hreg (once_listener f) k).
Qed.

End CountsMore.

(** ** Instances *)

Lemma emit_without_listeners_witness :
  let f := {| fn_code := 1; fn_closure := 0 |} in
  let w := {| listeners := {[ "user.*" := [on_listener f]; "drained" := [] ]};
              trace := [] |} in
  (∀ k lis, listeners w !! k = Some lis → shouldAdd k "drained" = true → lis = [])
  ∧ @EmitSync plain_runtime "drained" [] w = (Returned, record (Emitted "drained" []) w).
Proof.
  intros f w.
  assert (Hnone : ∀ k lis, listeners w !! k = Some lis →
                           shouldAdd k "drained" = true → lis = []).
  { intros k lis Hk Hs. cbn in Hk.
    apply lookup_insert_Some in Hk as [[<- _]|[_ Hk]]; [discriminate Hs|].
    by apply lookup_singleton_Some in Hk as [_ <-]. }
  split; [exact Hnone|].
  by destruct (@emit_without_listeners plain_runtime "drained" [] w Hnone).
Defined.

Lemma EmitSync_stops_at_first_panic_witness :
  let g := {| fn_code := 1; fn_closure := 0 |} in
  let h := {| fn_code := 2; fn_closure := 0 |} in
  let w := {| listeners :=
                {[ "job" := [on_listener g; on_listener job_callback; on_listener h] ]};
              trace := [] |} in
  @Listeners panicky_runtime "job" w
  = [on_listener g] ++ on_listener job_callback :: [on_listener h]
  ∧ Forall (λ u, @panics panicky_runtime (callback u) [] = false) [on_listener g]
  ∧ @panics panicky_runtime (callback (on_listener job_callback)) [] = true
  ∧ (@EmitSync panicky_runtime "job" [] w).1 = Panicked
  ∧ trace (after (@EmitSync panicky_runtime "job" []) w)
    = [Emitted "job" []; Called g []; Called job_callback []].
Proof.
  intros g h w.
  assert (Hsnap : @Listeners panicky_runtime "job" w
                  = [on_listener g] ++ on_listener job_callback :: [on_listener h])
    by (vm_compute; reflexivity).
  assert (Hpre : Forall (λ u, @panics panicky_runtime (callback u) [] = false)
                        [on_listener g]) by (repeat constructor).
  assert (Hv : @panics panicky_runtime (callback (on_listener job_callback)) [] = true)
    by reflexivity.
  destruct (@EmitSync_stops_at_first_panic panicky_runtime "job" [] w) as (Hout & Htr).
  split; [exact Hsnap|]. split; [exact Hpre|]. split; [exact Hv|]. split.
  - rewrite Hout, Hsnap. reflexivity.
  - rewrite (Htr _ _ _ Hsnap Hpre Hv). reflexivity.
Defined.

Lemma emit_changes_only_the_emitted_key_witness :
  let f := {| fn_code := 1; fn_closure := 0 |} in
  let w := {| listeners := {[ "user.*" := [once_listener f] ]}; trace := [] |} in
  "user.*" ≠ "user.created"
  ∧ once_listener f ∈ @Listeners plain_runtime "user.created" w
  ∧ listeners (after (@EmitSync plain_runtime "user.created" []) w) !! "user.*"
    = Some [once_listener f].
Proof.
  intros f w.
  destruct (@emit_changes_only_the_emitted_key plain_runtime "user.created" [] w)
    as (_ & _ & Hframe).
  assert (Hne : "user.*" ≠ "user.created") by discriminate.
  split; [exact Hne|]. split; [vm_compute; apply list_elem_of_here|].
  destruct (Hframe "user.*" Hne) as [-> _]. reflexivity.
Defined.

Lemma Listeners_after_RemoveAllListeners_witness :
  let f := {| fn_code := 1; fn_closure := 0 |} in
  let g := {| fn_code := 2; fn_closure := 0 |} in
  let w := {| listeners := {[ "a" := [on_listener f]; "*" := [on_listener g] ]};
              trace := [] |} in
  "*" ≠ "a"
  ∧ on_listener g ∈ @Listeners plain_runtime "a"
                      (after (RemoveAllListeners (Some "a")) w).
Proof.
  intros f g w.
  destruct (@Listeners_after_RemoveAllListeners plain_runtime w) as (_ & Hkeep).
  split; [discriminate|]. apply Hkeep.
  exists "*", [on_listener g]. split; [discriminate|].
  split; [reflexivity|]. split; [reflexivity | apply list_elem_of_here].
Defined.

Lemma single_key_unmatched_elsewhere (k : string) (ls : list Listener) (tr : list Event) :
  unmatched_elsewhere k {| listeners := {[ k := ls ]}; trace := tr |}.
Proof.
  intros k' lis Hk Hne. cbn in Hk.
  by apply lookup_singleton_Some in Hk as [? _].
Qed.

Lemma EmitSync_consumes_once_listeners_witness :
  let f := {| fn_code := 1; fn_closure := 0 |} in
  let g := {| fn_code := 2; fn_closure := 0 |} in
  let ls := [once_listener f; on_listener g] in
  let w := {| listeners := {[ "testevent" := ls ]}; trace := [] |} in
  listeners w !! "testevent" = Some ls
  ∧ unmatched_elsewhere "testevent" w
  ∧ NoDup (pointers ls)
  ∧ trace (@calls [@EmitSync plain_runtime "testevent" [];
                   @EmitSync plain_runtime "testevent" []] w)
    = [Emitted "testevent" []; Called f []; Called g [];
       Emitted "testevent" []; Called g []]
  ∧ listeners (after (@EmitSync plain_runtime "testevent" []) w) !! "testevent"
    = Some [on_listener g].
Proof.
  intros f g ls w.
  assert (Hk : listeners w !! "testevent" = Some ls) by reflexivity.
  assert (Hun : unmatched_elsewhere "testevent" w)
    by apply single_key_unmatched_elsewhere.
  assert (Hnd : NoDup (pointers ls)).
  { apply (bool_decide_unpack (NoDup (pointers ls))). vm_compute. exact I. }
  destruct (@EmitSync_consumes_once_listeners plain_runtime "testevent" [] w ls
              Hk Hun Hnd) as (_ & Hleft & _).
  split; [exact Hk|]. split; [exact Hun|]. split; [exact Hnd|].
  split; [vm_compute; reflexivity|].
  rewrite Hleft. reflexivity.
Defined.

Lemma EmitAsync_consumes_once_listeners_witness :
  let f := {| fn_code := 1; fn_closure := 0 |} in
  let g := {| fn_code := 2; fn_closure := 0 |} in
  let ls := [once_listener f; on_listener g] in
  let w := {| listeners := {[ "testevent" := ls ]}; trace := [] |} in
  listeners w !! "testevent" = Some ls
  ∧ unmatched_elsewhere "testevent" w
  ∧ NoDup (pointers ls)
  ∧ trace (after (@EmitAsync plain_runtime "testevent" []) w)
    = [Emitted "testevent" []; Spawned f []; Spawned g []]
  ∧ listeners (after (@EmitAsync plain_runtime "testevent" []) w) !! "testevent"
    = Some [on_listener g].
Proof.
  intros f g ls w.
  assert (Hk : listeners w !! "testevent" = Some ls) by reflexivity.
  assert (Hun : unmatched_elsewhere "testevent" w)
    by apply single_key_unmatched_elsewhere.
  assert (Hnd : NoDup (pointers ls)).
  { apply (bool_decide_unpack (NoDup (pointers ls))). vm_compute. exact I. }
  destruct (@EmitAsync_consumes_once_listeners plain_runtime "testevent" [] w ls
              Hk Hun Hnd) as (Htr & Hleft & _).
  split; [exact Hk|]. split; [exact Hun|]. split; [exact Hnd|].
  split; [rewrite Htr; reflexivity | rewrite Hleft; reflexivity].
Defined.

Lemma On_appends_witness :
  let f := {| fn_code := 1; fn_closure := 0 |} in
  let w := {| listeners := {[ "testevent" := [on_listener f] ]}; trace := [] |} in
  "testevent" ≠ "newListener"
  ∧ listeners (after (@On plain_runtime "testevent" f) w) !! "testevent"
    = Some [on_listener f; on_listener f]
  ∧ listeners (after (@Once plain_runtime "fresh" f) w) !! "fresh"
    = Some [once_listener f].
Proof.
  intros f w.
  assert (H1 : "testevent" ≠ "newListener") by discriminate.
  assert (H2 : "fresh" ≠ "newListener") by discriminate.
  destruct (@On_appends plain_runtime "testevent" f w H1) as (Hon & _).
  destruct (@On_appends plain_runtime "fresh" f w H2) as (_ & Honce & _).
  split; [exact H1|]. split; [rewrite Hon | rewrite Honce]; reflexivity.
Defined.

Lemma newListener_handler_sees_itself_witness :
  let h := {| fn_code := 3; fn_closure := 0 |} in
  Forall (λ v, @panics plain_runtime (callback v) (meta_args "newListener" h) = false)
         (@Listeners plain_runtime "newListener"
            (register "newListener" (on_listener h) Construct))
  ∧ Called h (meta_args "newListener" h)
    ∈ trace (after (@On plain_runtime "newListener" h) Construct).
Proof.
  intros h.
  assert (Hall : Forall (λ v, @panics plain_runtime (callback v)
                                (meta_args "newListener" h) = false)
                   (@Listeners plain_runtime "newListener"
                      (register "newListener" (on_listener h) Construct))).
  { apply Forall_forall. reflexivity. }
  split; [exact Hall|].
  by destruct (@newListener_handler_sees_itself plain_runtime h Construct)
    as (_ & Hcalled); apply Hcalled.
Defined.

Lemma On_then_RemoveListener_witness :
  let f := {| fn_code := 1; fn_closure := 0 |} in
  let g := {| fn_code := 2; fn_closure := 0 |} in
  let w := {| listeners := {[ "testevent" := [on_listener g] ]}; trace := [] |} in
  "testevent" ≠ "newListener" ∧ "testevent" ≠ "removeListener"
  ∧ no_match f [on_listener g]
  ∧ listeners (@calls [@On plain_runtime "testevent" f;
                       @RemoveListener plain_runtime "testevent" f] w) !! "testevent"
    = Some [on_listener g]
  ∧ first_match g [on_listener g] [] (on_listener g) []
  ∧ listeners (@calls [@On plain_runtime "testevent" g;
                       @RemoveListener plain_runtime "testevent" g] w) !! "testevent"
    = Some [on_listener g].
Proof.
  intros f g w.
  assert (H1 : "testevent" ≠ "newListener") by discriminate.
  assert (H2 : "testevent" ≠ "removeListener") by discriminate.
  assert (Hno : no_match f [on_listener g]).
  { constructor; [discriminate | constructor]. }
  assert (Hm : first_match g [on_listener g] [] (on_listener g) []).
  { split; [reflexivity|]. split; [reflexivity | constructor]. }
  destruct (@On_then_RemoveListener plain_runtime "testevent" f w H1 H2) as (Hback & _).
  destruct (@On_then_RemoveListener plain_runtime "testevent" g w H1 H2) as (_ & Hearlier).
  split; [exact H1|]. split; [exact H2|]. split; [exact Hno|].
  split; [exact (Hback Hno)|]. split; [exact Hm|].
  exact (Hearlier [] (on_listener g) [] Hm).
Defined.

Lemma once_consumption_takes_earlier_registration_witness :
  let f := {| fn_code := 1; fn_closure := 0 |} in
  let w := {| listeners := {[ "testevent" := [on_listener f; once_listener f] ]};
              trace := [] |} in
  listeners w !! "testevent" = Some [on_listener f; once_listener f]
  ∧ unmatched_elsewhere "testevent" w
  ∧ Pointer f = Pointer f
  ∧ @panics plain_runtime f [] = false
  ∧ listeners (after (@EmitSync plain_runtime "testevent" []) w) !! "testevent"
    = Some [once_listener f].
Proof.
  intros f w.
  assert (Hk : listeners w !! "testevent" = Some [on_listener f; once_listener f])
    by reflexivity.
  assert (Hun : unmatched_elsewhere "testevent" w)
    by apply single_key_unmatched_elsewhere.
  destruct (@once_consumption_takes_earlier_registration plain_runtime "testevent"
              f f [] w Hk Hun eq_refl eq_refl) as (_ & Hleft & _).
  split; [exact Hk|]. split; [exact Hun|]. split; [reflexivity|].
  split; [reflexivity | exact Hleft].
Defined.

Lemma ListenersCount_after_On_witness :
  let f := {| fn_code := 1; fn_closure := 0 |} in
  let w := {| listeners := {[ "user.created" := [on_listener f] ]}; trace := [] |} in
  "user.*" ≠ "newListener" ∧ "user.created" ≠ "newListener"
  ∧ @ListenersCount plain_runtime "user.created" (after (@On plain_runtime "user.*" f) w)
    = 2
  ∧ @ListenersCount plain_runtime "admin.created" (after (@On plain_runtime "user.*" f) w)
    = 0.
Proof.
  intros f w.
  assert (H1 : "user.*" ≠ "newListener") by discriminate.
  assert (H2 : "user.created" ≠ "newListener") by discriminate.
  assert (H3 : "admin.created" ≠ "newListener") by discriminate.
  destruct (@ListenersCount_after_On plain_runtime "user.*" f "user.created" w H1 H2)
    as (Hyes & _).
  destruct (@ListenersCount_after_On plain_runtime "user.*" f "admin.created" w H1 H3)
    as (Hno & _).
  split; [exact H1|]. split; [exact H2|].
  split; [rewrite Hyes | rewrite Hno]; vm_compute; reflexivity.
Defined.

Lemma ListenersCount_after_RemoveListener_witness :
  let f := {| fn_code := 1; fn_closure := 0 |} in
  let w := {| listeners := {[ "user.*" := [on_listener f] ]}; trace := [] |} in
  "user.*" ≠ "removeListener" ∧ "user.created" ≠ "removeListener"
  ∧ @ListenersCount plain_runtime "user.created" w = 1
  ∧ @ListenersCount plain_runtime "user.created"
      (after (@RemoveListener plain_runtime "user.*" f) w) + 1 = 1.
Proof.
  intros f w.
  assert (H1 : "user.*" ≠ "removeListener") by discriminate.
  assert (H2 : "user.created" ≠ "removeListener") by discriminate.
  pose proof (@ListenersCount_after_RemoveListener plain_runtime "user.*" f
                "user.created" w H1 H2) as Hcount.
  split; [exact H1|]. split; [exact H2|].
  assert (H0 : @ListenersCount plain_runtime "user.created" w = 1)
    by (vm_compute; reflexivity).
  split; [exact H0|]. rewrite <- H0 at 2. exact Hcount.
Defined.
